(** * spin-wheel: the [Item] entity of [src/item.js]

    A shallow embedding of the class [Item] (one weighted sector of a
    spinner wheel) together with the properties its specification states.

    Conventions of the embedding.
    - JavaScript values are the inductive [JSValue]; [typeof] is the
      operator of the language.  Numbers are IEEE doubles, the primitive
      floats of the kernel, with their rounding, [NaN] and the infinities.
    - Objects with identity (items, wheels, Path2D objects) live in the heap
      of a [World] and are referred to by address; [===] on them compares
      addresses.  Plain data objects such as a property bag are values.
    - A method of [Item] takes [this] as its first argument and runs in the
      monad [M], which threads the world; a thrown error does not undo the
      writes made before it.
    - [util.js], [constants.js] and [wheel.js] are not part of the sources at
      hand.  [Defaults.item], the value returned by [util.loadImage] and the
      value returned by [util.getRandomFloat] are parameters; [util.isObject]
      follows the specification. *)

From Stdlib Require Import Floats.
From stdpp Require Import gmap strings list fin_maps.

Set Warnings "-register-all".
Local Open Scope string_scope.

(** ** Values *)

Definition loc := nat.

Inductive JSValue :=
| VUndefined
| VNull
| VBool (b : bool)
| VNumber (n : float)
| VBigInt (z : Z)
| VString (s : string)
| VSymbol (n : nat)
| VFunction (f : loc)
| VObject (props : gmap string JSValue)   (* a plain data object, such as a property bag *)
| VRef (l : loc).                         (* an object of the heap: an item, a wheel *)

Inductive JSType :=
| TUndefined | TObject | TBoolean | TNumber | TBigInt | TString | TSymbol | TFunction.

Definition typeof (v : JSValue) : JSType :=
  match v with
  | VUndefined => TUndefined
  | VNull => TObject
  | VBool _ => TBoolean
  | VNumber _ => TNumber
  | VBigInt _ => TBigInt
  | VString _ => TString
  | VSymbol _ => TSymbol
  | VFunction _ => TFunction
  | VObject _ => TObject
  | VRef _ => TObject
  end.

Definition JSType_eqb (a b : JSType) : bool :=
  match a, b with
  | TUndefined, TUndefined | TObject, TObject | TBoolean, TBoolean
  | TNumber, TNumber | TBigInt, TBigInt | TString, TString
  | TSymbol, TSymbol | TFunction, TFunction => true
  | _, _ => false
  end.

(** [val !== undefined] *)
Definition is_undefined (v : JSValue) : bool :=
  match v with VUndefined => true | _ => false end.

(** [val !== null] *)
Definition is_null (v : JSValue) : bool :=
  match v with VNull => true | _ => false end.

(** Truthiness, as tested by [if (props)]. *)
Definition toBoolean (v : JSValue) : bool :=
  match v with
  | VUndefined | VNull => false
  | VBool b => b
  | VNumber n => negb ((n =? 0)%float || PrimFloat.is_nan n)
  | VBigInt z => negb (Z.eqb z 0)
  | VString s => negb (String.eqb s "")
  | VSymbol _ | VFunction _ | VObject _ | VRef _ => true
  end.

(** [bag[k]] for the properties of a data object: a missing key reads as
    [undefined]. *)
Definition getProp (bag : gmap string JSValue) (k : string) : JSValue :=
  default VUndefined (bag !! k).

(** Modelled from the spec: [util.isObject] of [util.js], which is not among
    the sources.  The specification speaks of an argument that is "an
    object" as opposed to "a non-object, non-null value". *)
Definition isObject (v : JSValue) : bool :=
  match v with
  | VObject _ | VRef _ => true
  | _ => false
  end.

(** ** Errors and the monad of methods *)

Inductive JSError :=
| Error (message : string)
| TypeError (message : string).

Inductive Result (A : Type) :=
| Ok (a : A)
| Throw (e : JSError).
Arguments Ok {A} a.
Arguments Throw {A} e.

(** ** The item, its owning wheel and the heap *)

(** The keys of [ItemProps]; [this['_' + k]] is the private field of key [k]. *)
Inductive Field :=
| BackgroundColor | Image | ImageOpacity | ImageRadius | ImageRotation
| ImageScale | Label | LabelColor | Value | Weight.

Definition all_fields : list Field :=
  [BackgroundColor; Image; ImageOpacity; ImageRadius; ImageRotation;
   ImageScale; Label; LabelColor; Value; Weight].

Definition key (f : Field) : string :=
  match f with
  | BackgroundColor => "backgroundColor"
  | Image => "image"
  | ImageOpacity => "imageOpacity"
  | ImageRadius => "imageRadius"
  | ImageRotation => "imageRotation"
  | ImageScale => "imageScale"
  | Label => "label"
  | LabelColor => "labelColor"
  | Value => "value"
  | Weight => "weight"
  end.

(** The typedef [ItemProps], which is also the shape of [Defaults.item]. *)
Record ItemProps := {
  backgroundColor : JSValue;
  image : JSValue;
  imageOpacity : JSValue;
  imageRadius : JSValue;
  imageRotation : JSValue;
  imageScale : JSValue;
  label : JSValue;
  labelColor : JSValue;
  value : JSValue;
  weight : JSValue;
}.

(** [Defaults.item[k]] *)
Definition prop (p : ItemProps) (f : Field) : JSValue :=
  match f with
  | BackgroundColor => backgroundColor p
  | Image => image p
  | ImageOpacity => imageOpacity p
  | ImageRadius => imageRadius p
  | ImageRotation => imageRotation p
  | ImageScale => imageScale p
  | Label => label p
  | LabelColor => labelColor p
  | Value => value p
  | Weight => weight p
  end.

(** The object that [p] is, when it is passed where a property bag is read. *)
Definition ItemProps_bag (p : ItemProps) : gmap string JSValue :=
  list_to_map (map (fun f => (key f, prop p f)) all_fields).

Definition ItemProps_object (p : ItemProps) : JSValue :=
  VObject (ItemProps_bag p).

Record Item := {
  _wheel : JSValue;
  path : JSValue;
  _imageObj : JSValue;
  _backgroundColor : JSValue;
  _image : JSValue;
  _imageOpacity : JSValue;
  _imageRadius : JSValue;
  _imageRotation : JSValue;
  _imageScale : JSValue;
  _label : JSValue;
  _labelColor : JSValue;
  _value : JSValue;
  _weight : JSValue;
}.

(** [this['_' + k]] *)
Definition private (it : Item) (f : Field) : JSValue :=
  match f with
  | BackgroundColor => _backgroundColor it
  | Image => _image it
  | ImageOpacity => _imageOpacity it
  | ImageRadius => _imageRadius it
  | ImageRotation => _imageRotation it
  | ImageScale => _imageScale it
  | Label => _label it
  | LabelColor => _labelColor it
  | Value => _value it
  | Weight => _weight it
  end.

(** [this['_' + k] = v] *)
Definition store (f : Field) (v : JSValue) (it : Item) : Item :=
  {| _wheel := _wheel it;
     path := path it;
     _imageObj := _imageObj it;
     _backgroundColor := match f with BackgroundColor => v | _ => _backgroundColor it end;
     _image := match f with Image => v | _ => _image it end;
     _imageOpacity := match f with ImageOpacity => v | _ => _imageOpacity it end;
     _imageRadius := match f with ImageRadius => v | _ => _imageRadius it end;
     _imageRotation := match f with ImageRotation => v | _ => _imageRotation it end;
     _imageScale := match f with ImageScale => v | _ => _imageScale it end;
     _label := match f with Label => v | _ => _label it end;
     _labelColor := match f with LabelColor => v | _ => _labelColor it end;
     _value := match f with Value => v | _ => _value it end;
     _weight := match f with Weight => v | _ => _weight it end |}.

(** [this._imageObj = v] *)
Definition store_imageObj (v : JSValue) (it : Item) : Item :=
  {| _wheel := _wheel it; path := path it; _imageObj := v;
     _backgroundColor := _backgroundColor it; _image := _image it;
     _imageOpacity := _imageOpacity it; _imageRadius := _imageRadius it;
     _imageRotation := _imageRotation it; _imageScale := _imageScale it;
     _label := _label it; _labelColor := _labelColor it;
     _value := _value it; _weight := _weight it |}.

(** [this.path = v] *)
Definition store_path (v : JSValue) (it : Item) : Item :=
  {| _wheel := _wheel it; path := v; _imageObj := _imageObj it;
     _backgroundColor := _backgroundColor it; _image := _image it;
     _imageOpacity := _imageOpacity it; _imageRadius := _imageRadius it;
     _imageRotation := _imageRotation it; _imageScale := _imageScale it;
     _label := _label it; _labelColor := _labelColor it;
     _value := _value it; _weight := _weight it |}.

(** The object [new Item] starts from: no field is set yet. *)
Definition blank : Item :=
  {| _wheel := VUndefined; path := VUndefined; _imageObj := VUndefined;
     _backgroundColor := VUndefined; _image := VUndefined;
     _imageOpacity := VUndefined; _imageRadius := VUndefined;
     _imageRotation := VUndefined; _imageScale := VUndefined;
     _label := VUndefined; _labelColor := VUndefined;
     _value := VUndefined; _weight := VUndefined |}.

(** [this._wheel = v] *)
Definition store_wheel (v : JSValue) (it : Item) : Item :=
  {| _wheel := v; path := path it; _imageObj := _imageObj it;
     _backgroundColor := _backgroundColor it; _image := _image it;
     _imageOpacity := _imageOpacity it; _imageRadius := _imageRadius it;
     _imageRotation := _imageRotation it; _imageScale := _imageScale it;
     _label := _label it; _labelColor := _labelColor it;
     _value := _value it; _weight := _weight it |}.

(** One entry [{start, end}] of the table that [getItemAngles()] returns. *)
Record Angle := { start : float; end_ : float }.

(** What an item uses of its wheel ([IWheel]): the sequence [items] (by
    address), the angle table [getItemAngles()] returns, and [refresh()],
    of which the wheel counts the calls. *)
Record IWheel := {
  items : list loc;
  getItemAngles : list Angle;
  refreshes : nat;
}.

Definition refreshed (w : IWheel) : IWheel :=
  {| items := items w; getItemAngles := getItemAngles w;
     refreshes := S (refreshes w) |}.

Inductive HeapObject :=
| HItem (it : Item)
| HWheel (w : IWheel)
| HPath2D.

(** The closure handed to [util.loadImage]: [e => this._wheel.refresh()],
    with the [this] it captures. *)
Inductive Callback :=
| RefreshOnLoad (this : loc).

(** The heap, the image loads in flight (by request number, with the
    callback to run on completion) and the number of loads requested. *)
Record World := {
  heap : gmap loc HeapObject;
  loading : gmap nat Callback;
  requests : nat;
}.

Definition set_heap (h : gmap loc HeapObject) (σ : World) : World :=
  {| heap := h; loading := loading σ; requests := requests σ |}.

Definition M (A : Type) : Type := World → Result A * World.

#[export] Instance M_ret : MRet M := fun A a σ => (Ok a, σ).

#[export] Instance M_bind : MBind M := fun A B k m σ =>
  match m σ with
  | (Ok a, σ') => k a σ'
  | (Throw e, σ') => (Throw e, σ')
  end.

Definition throw {A} (e : JSError) : M A := fun σ => (Throw e, σ).

(** *** Heap accesses *)

(** Reading the object [this] refers to.  A method of [Item] runs on an
    [Item]; on anything else the access is a [TypeError]. *)
Definition this_item (this : loc) : M Item := fun σ =>
  match heap σ !! this with
  | Some (HItem it) => (Ok it, σ)
  | _ => (Throw (TypeError "this is not an Item"), σ)
  end.

(** Writing the object at an address. *)
Definition put (l : loc) (o : HeapObject) : M unit := fun σ =>
  (Ok (), set_heap (<[l := o]> (heap σ)) σ).

(** [this.f = ...]: an update of the object in place. *)
Definition update (this : loc) (upd : Item → Item) : M unit :=
  it ← this_item this; put this (HItem (upd it)).

(** [new C]: a fresh address holding [o]. *)
Definition alloc (o : HeapObject) : M loc := fun σ =>
  let l := fresh (dom (heap σ)) in
  (Ok l, set_heap (<[l := o]> (heap σ)) σ).

(** [wheel.refresh()].  A wheel counts the call.  An item, a Path2D object
    and a primitive have no such member, and the call is a [TypeError]; so
    it is on a data object that holds nothing, or no function, at
    [refresh].  A data object stands for plain data here: an object whose
    [refresh] can be called is a wheel and lives in the heap, and the call
    of a function held in a bag is not part of the model. *)
Definition refresh (wheel : JSValue) : M unit := fun σ =>
  match wheel with
  | VRef w =>
      match heap σ !! w with
      | Some (HWheel ws) =>
          (Ok (), set_heap (<[w := HWheel (refreshed ws)]> (heap σ)) σ)
      | _ => (Throw (TypeError "this._wheel.refresh is not a function"), σ)
      end
  | _ => (Throw (TypeError "this._wheel.refresh is not a function"), σ)
  end.

(** [this._wheel.refresh()] *)
Definition wheel_refresh (this : loc) : M unit :=
  it ← this_item this; refresh (_wheel it).

(** [wheel.items] and [wheel.getItemAngles()], read off the wheel. *)
Definition wheel_state (wheel : JSValue) : M IWheel := fun σ =>
  match wheel with
  | VRef w =>
      match heap σ !! w with
      | Some (HWheel ws) => (Ok ws, σ)
      | _ => (Throw (TypeError "this._wheel is not a Wheel"), σ)
      end
  | _ => (Throw (TypeError "this._wheel is not a Wheel"), σ)
  end.

(** [for (const x of l) body(x)] *)
Fixpoint for_each {A} (l : list A) (body : A → M unit) : M unit :=
  match l with
  | [] => mret ()
  | x :: l' => body x;; for_each l' body
  end.

(** [o.k] for a key [k] of [ItemProps], where [o] may be anything.  Reading
    a property of [undefined] or [null] is a [TypeError].  A data object has
    what its bag holds.  An item has the ten keys as accessors, and its
    getter returns the private field.  A wheel is known by the members an
    item uses of it, none of which is a key of [ItemProps]: on a wheel, as
    on a Path2D object, a primitive or a function, the key reads as
    [undefined]. *)
Definition readProp (o : JSValue) (f : Field) : M JSValue := fun σ =>
  match o with
  | VUndefined | VNull =>
      (Throw (TypeError ("Cannot read properties of undefined or null, reading "
                         ++ key f)), σ)
  | VObject bag => (Ok (getProp bag (key f)), σ)
  | VRef l =>
      match heap σ !! l with
      | Some (HItem it) => (Ok (private it f), σ)
      | _ => (Ok VUndefined, σ)
      end
  | _ => (Ok VUndefined, σ)
  end.

(** [Array.prototype.findIndex]: the position of the first element that
    satisfies [p], or [-1]. *)
Fixpoint findIndex_from {A} (p : A → bool) (l : list A) (i : Z) : Z :=
  match l with
  | [] => (-1)%Z
  | x :: l' => if p x then i else findIndex_from p l' (i + 1)%Z
  end.

Definition findIndex {A} (p : A → bool) (l : list A) : Z :=
  findIndex_from p l 0%Z.

(** [angles[i].start] and the like: the entry of the table at [i]; reading a
    bound of a missing entry is a [TypeError]. *)
Definition entry (angles : list Angle) (i : Z) : M Angle :=
  match (if (i <? 0)%Z then None else angles !! Z.to_nat i) with
  | Some a => mret a
  | None => throw (TypeError "Cannot read properties of undefined")
  end.

(** ** The class [Item] *)

Section Item.

(** [Defaults.item] of [constants.js], which is not among the sources: the
    process-wide table of the defaults of an item. *)
Variable Defaults_item : ItemProps.

(** What [util.loadImage(url, callback)] returns to its caller, for the
    request of that number: [util.js] is not among the sources. *)
Variable loadImage_returns : nat → JSValue → JSValue.

(** Modelled from the spec: [util.loadImage] of [util.js], which is not
    among the sources.  The call "asynchronously begins loading the
    corresponding image resource": it records the load as in flight with
    the callback to run when it completes, and returns at once. *)
Definition loadImage (url : JSValue) (callback : Callback) : M JSValue := fun σ =>
  (Ok (loadImage_returns (requests σ) url),
   {| heap := heap σ;
      loading := <[requests σ := callback]> (loading σ);
      requests := S (requests σ) |}).

(** *** Accessors *)

Definition get_backgroundColor (this : loc) : M JSValue :=
  it ← this_item this; mret (_backgroundColor it).

Definition set_backgroundColor (this : loc) (val : JSValue) : M unit :=
  (if JSType_eqb (typeof val) TString
   then update this (store BackgroundColor val)
   else update this (store BackgroundColor (backgroundColor Defaults_item)));;
  wheel_refresh this.

Definition get_image (this : loc) : M JSValue :=
  it ← this_item this; mret (_image it).

Definition set_image (this : loc) (val : JSValue) : M unit :=
  (if JSType_eqb (typeof val) TString
   then update this (store Image val);;
        img ← loadImage val (RefreshOnLoad this);
        update this (store_imageObj img)
   else update this (store Image (image Defaults_item));;
        update this (store_imageObj VNull));;
  wheel_refresh this.

Definition get_imageObj (this : loc) : M JSValue :=
  it ← this_item this; mret (_imageObj it).

Definition get_imageOpacity (this : loc) : M JSValue :=
  it ← this_item this; mret (_imageOpacity it).

Definition set_imageOpacity (this : loc) (val : JSValue) : M unit :=
  (if JSType_eqb (typeof val) TNumber
   then update this (store ImageOpacity val)
   else update this (store ImageOpacity (imageOpacity Defaults_item)));;
  wheel_refresh this.

Definition get_imageRadius (this : loc) : M JSValue :=
  it ← this_item this; mret (_imageRadius it).

Definition set_imageRadius (this : loc) (val : JSValue) : M unit :=
  (if JSType_eqb (typeof val) TNumber
   then update this (store ImageRadius val)
   else update this (store ImageRadius (imageRadius Defaults_item)));;
  wheel_refresh this.

Definition get_imageRotation (this : loc) : M JSValue :=
  it ← this_item this; mret (_imageRotation it).

Definition set_imageRotation (this : loc) (val : JSValue) : M unit :=
  (if JSType_eqb (typeof val) TNumber
   then update this (store ImageRotation val)
   else update this (store ImageRotation (imageRotation Defaults_item)));;
  wheel_refresh this.

Definition get_imageScale (this : loc) : M JSValue :=
  it ← this_item this; mret (_imageScale it).

Definition set_imageScale (this : loc) (val : JSValue) : M unit :=
  (if JSType_eqb (typeof val) TNumber
   then update this (store ImageScale val)
   else update this (store ImageScale (imageScale Defaults_item)));;
  wheel_refresh this.

Definition get_label (this : loc) : M JSValue :=
  it ← this_item this; mret (_label it).

Definition set_label (this : loc) (val : JSValue) : M unit :=
  (if JSType_eqb (typeof val) TString
   then update this (store Label val)
   else update this (store Label (label Defaults_item)));;
  wheel_refresh this.

Definition get_labelColor (this : loc) : M JSValue :=
  it ← this_item this; mret (_labelColor it).

Definition set_labelColor (this : loc) (val : JSValue) : M unit :=
  (if JSType_eqb (typeof val) TString
   then update this (store LabelColor val)
   else update this (store LabelColor (labelColor Defaults_item)));;
  wheel_refresh this.

Definition get_value (this : loc) : M JSValue :=
  it ← this_item this; mret (_value it).

Definition set_value (this : loc) (val : JSValue) : M unit :=
  if negb (is_undefined val)
  then update this (store Value val)
  else update this (store Value (value Defaults_item)).

Definition get_weight (this : loc) : M JSValue :=
  it ← this_item this; mret (_weight it).

Definition set_weight (this : loc) (val : JSValue) : M unit :=
  if JSType_eqb (typeof val) TNumber
  then update this (store Weight val)
  else update this (store Weight (weight Defaults_item)).

(** *** [init] and the constructor *)

Definition init (this : loc) (props : JSValue) : M unit :=
  let props := if is_undefined props then VObject ∅ else props in
  (v ← readProp props BackgroundColor; set_backgroundColor this v);;
  (v ← readProp props Image; set_image this v);;
  (v ← readProp props ImageOpacity; set_imageOpacity this v);;
  (v ← readProp props ImageRadius; set_imageRadius this v);;
  (v ← readProp props ImageRotation; set_imageRotation this v);;
  (v ← readProp props ImageScale; set_imageScale this v);;
  (v ← readProp props Label; set_label this v);;
  (v ← readProp props LabelColor; set_labelColor this v);;
  (v ← readProp props Value; set_value this v);;
  (v ← readProp props Weight; set_weight this v).

(** [new Item(wheel, props)]; the result is the address of the new item. *)
Definition constructor (wheel props : JSValue) : M loc :=
  let props := if is_undefined props then VObject ∅ else props in
  this ← alloc (HItem blank);
  (if negb (isObject wheel)
   then throw (Error "wheel must be an instance of Wheel") else mret ());;
  (if negb (isObject props) && negb (is_null props)
   then throw (Error "props must be an Object or null") else mret ());;
  update this (store_wheel wheel);;
  for_each all_fields (fun i => update this (store i (prop Defaults_item i)));;
  (p ← alloc HPath2D; update this (store_path (VRef p)));;
  update this (store_imageObj VNull);;
  update this (store BackgroundColor VNull);;
  update this (store Image VNull);;
  update this (store ImageOpacity (VNumber 0));;
  update this (store ImageRadius (VNumber 0));;
  update this (store ImageRotation (VNumber 0));;
  update this (store ImageScale (VNumber 0));;
  update this (store Label (VString ""));;
  update this (store LabelColor VNull);;
  update this (store Value VUndefined);;
  update this (store Weight (VNumber 0));;
  (if toBoolean props
   then init this props
   else init this (ItemProps_object Defaults_item));;
  mret this.

(** *** Queries *)

Definition getIndex (this : loc) : M Z :=
  it ← this_item this;
  w ← wheel_state (_wheel it);
  let index := findIndex (fun i => Nat.eqb i this) (items w) in
  if (index =? -1)%Z
  then throw (Error "Item not found in parent Wheel")
  else mret index.

Definition getCenterAngle (this : loc) : M float :=
  it ← this_item this;
  w ← wheel_state (_wheel it);
  i ← getIndex this;
  angle ← entry (getItemAngles w) i;
  mret (start angle + ((end_ angle - start angle) / 2))%float.

Definition getStartAngle (this : loc) : M float :=
  it ← this_item this;
  w ← wheel_state (_wheel it);
  i ← getIndex this;
  angle ← entry (getItemAngles w) i;
  mret (start angle).

Definition getEndAngle (this : loc) : M float :=
  it ← this_item this;
  w ← wheel_state (_wheel it);
  i ← getIndex this;
  angle ← entry (getItemAngles w) i;
  mret (end_ angle).

(** [util.getRandomFloat] of [util.js] is not among the sources: [u min max]
    is the value its call with these two bounds returns. *)
Definition getRandomAngle (u : float → float → float) (this : loc) : M float :=
  min ← getStartAngle this;
  max ← getEndAngle this;
  mret (u min max).

(** *** Completion of an image load *)

(** The load of request [request] completes: its callback
    [e => this._wheel.refresh()] runs, once.  The callback runs from the
    event loop, so an error it throws reaches no caller of the item. *)
Definition complete (request : nat) : M unit := fun σ =>
  match loading σ !! request with
  | Some (RefreshOnLoad this) =>
      let σ' := {| heap := heap σ;
                   loading := delete request (loading σ);
                   requests := requests σ |} in
      (Ok (), (wheel_refresh this σ').2)
  | None => (Ok (), σ)
  end.

(** The loads of [rs] complete, in that order. *)
Definition completions (rs : list nat) : M unit :=
  for_each rs complete.

(** *** The property surface, by key *)

(** [this[k] = val] and [this[k]] for the public property of key [k]. *)
Definition setter (f : Field) : loc → JSValue → M unit :=
  match f with
  | BackgroundColor => set_backgroundColor
  | Image => set_image
  | ImageOpacity => set_imageOpacity
  | ImageRadius => set_imageRadius
  | ImageRotation => set_imageRotation
  | ImageScale => set_imageScale
  | Label => set_label
  | LabelColor => set_labelColor
  | Value => set_value
  | Weight => set_weight
  end.

Definition getter (f : Field) : loc → M JSValue :=
  match f with
  | BackgroundColor => get_backgroundColor
  | Image => get_image
  | ImageOpacity => get_imageOpacity
  | ImageRadius => get_imageRadius
  | ImageRotation => get_imageRotation
  | ImageScale => get_imageScale
  | Label => get_label
  | LabelColor => get_labelColor
  | Value => get_value
  | Weight => get_weight
  end.

End Item.

(** ** What the specification says of an assignment *)

(** The type the specification expects of each field; [value] has none. *)
Definition expected (f : Field) : option JSType :=
  match f with
  | BackgroundColor | Image | Label | LabelColor => Some TString
  | ImageOpacity | ImageRadius | ImageRotation | ImageScale | Weight => Some TNumber
  | Value => None
  end.

(** The rule of the specification: a candidate of the expected type is
    kept, any other is replaced by the configured default; for [value]
    every candidate but the unset sentinel [undefined] is kept. *)
Definition validated (Defaults_item : ItemProps) (f : Field) (val : JSValue) : JSValue :=
  match expected f with
  | Some ty => if JSType_eqb (typeof val) ty then val else prop Defaults_item f
  | None => if is_undefined val then prop Defaults_item f else val
  end.

(** The fields whose assignment the specification says is signalled to the
    wheel: all but [value] and [weight]. *)
Definition notifies (f : Field) : bool :=
  match f with
  | Value | Weight => false
  | _ => true
  end.

(** The errors of the specification's taxonomy, as the code throws them. *)
Definition NotFound : JSError := Error "Item not found in parent Wheel".

Definition InvalidArgument (e : JSError) : Prop :=
  e = Error "wheel must be an instance of Wheel" ∨
  e = Error "props must be an Object or null".

(** ** States of the heap *)

(** [this] is an item whose [_wheel] is the wheel at [w], in state [ws]. *)
Definition owned_by (σ : World) (this : loc) (it : Item) (w : loc) (ws : IWheel) : Prop :=
  heap σ !! this = Some (HItem it) ∧ _wheel it = VRef w ∧
  heap σ !! w = Some (HWheel ws).

(** [m] runs from [σ] without throwing, to a result and a world in [Q]. *)
Definition returns {A} (m : M A) (σ : World) (Q : A → World → Prop) : Prop :=
  ∃ a σ', m σ = (Ok a, σ') ∧ Q a σ'.

(** What a method leaves of the heap around the item and its wheel. *)
Definition frame (σ σ' : World) (this w : loc) : Prop :=
  ∀ l, l ≠ this → l ≠ w → heap σ' !! l = heap σ !! l.

(** The outcome of a method that leaves [it'] of the item and [ws'] of the
    wheel, and does not touch the loads. *)
Definition quiet_post (σ : World) (this : loc) (it' : Item) (w : loc) (ws' : IWheel)
    : () → World → Prop :=
  fun _ σ' => owned_by σ' this it' w ws' ∧ frame σ σ' this w ∧
              loading σ' = loading σ ∧ requests σ' = requests σ.

(** The item an assignment of [val] to the property [f] leaves of [it]; [n]
    is the number of the load request the assignment makes, if any. *)
Definition assigned (Defaults_item : ItemProps) (loadImage_returns : nat → JSValue → JSValue)
    (f : Field) (val : JSValue) (n : nat) (it : Item) : Item :=
  match f with
  | Image =>
      if JSType_eqb (typeof val) TString
      then store_imageObj (loadImage_returns n val) (store Image val it)
      else store_imageObj VNull (store Image (image Defaults_item) it)
  | _ => store f (validated Defaults_item f val) it
  end.

(** Whether the assignment starts a load. *)
Definition loads (f : Field) (val : JSValue) : bool :=
  match f with
  | Image => JSType_eqb (typeof val) TString
  | _ => false
  end.

(** The outcome of the assignment [this[f] = val] made in [σ] on the item
    [it] of the wheel at [w]. *)
Definition setter_post (Defaults_item : ItemProps) (loadImage_returns : nat → JSValue → JSValue)
    (f : Field) (val : JSValue) (σ : World) (this : loc) (it : Item) (w : loc) (ws : IWheel)
    : () → World → Prop :=
  fun _ σ' =>
    owned_by σ' this (assigned Defaults_item loadImage_returns f val (requests σ) it) w
             (if notifies f then refreshed ws else ws) ∧
    frame σ σ' this w ∧
    loading σ' = (if loads f val
                  then <[requests σ := RefreshOnLoad this]> (loading σ)
                  else loading σ) ∧
    requests σ' = (if loads f val then S (requests σ) else requests σ).


(** The outcome of a step of the constructor: the item and its wheel, and
    no load requested. *)
Definition kept_post (σ : World) (this : loc) (it' : Item) (w : loc) (ws' : IWheel)
    : () → World → Prop :=
  fun _ σ' => owned_by σ' this it' w ws' ∧ requests σ' = requests σ.

(** The item that [init] leaves of [it] when it reads [c f] at the key of
    [f]: each key of [ItemProps] assigned in turn; [n] is the number of the
    load request it may make. *)
Definition initialised (Defaults_item : ItemProps) (loadImage_returns : nat → JSValue → JSValue)
    (c : Field → JSValue) (n : nat) (it : Item) : Item :=
  foldl (fun it f => assigned Defaults_item loadImage_returns f (c f) n it)
        it all_fields.

(** What [init] reads at each key of a data object. *)
Definition bag_values (bag : gmap string JSValue) : Field → JSValue :=
  fun f => getProp bag (key f).

(** The object whose properties the constructor assigns: [{}] for an absent
    bag, [Defaults.item] for [null], and the bag itself otherwise. *)
Definition init_source (Defaults_item : ItemProps) (props : JSValue) : JSValue :=
  if is_undefined props then VObject ∅
  else if is_null props then ItemProps_object Defaults_item
  else props.

(** The bag that [init_source] is, for a bag that is absent, [null] or a
    data object. *)
Definition init_bag (Defaults_item : ItemProps) (props : JSValue) : gmap string JSValue :=
  match props with
  | VNull => ItemProps_bag Defaults_item
  | VObject bag => bag
  | _ => ∅
  end.

(** [m] throws nothing but a [TypeError]. *)
Definition throws_only_TypeError {A} (m : M A) : Prop :=
  ∀ σ e σ', m σ = (Throw e, σ') → ∃ msg, e = TypeError msg.


(** [m] leaves the world as it finds it, whether it returns or throws. *)
Definition reads_only {A} (m : M A) : Prop := ∀ σ, (m σ).2 = σ.



(** [m], a piece of a method of the item at [this], changes no other item. *)
Definition spares {A} (this : loc) (m : M A) : Prop :=
  ∀ σ l it, l ≠ this → heap σ !! l = Some (HItem it) →
            heap (m σ).2 !! l = Some (HItem it).

(** ** Sample data *)

Definition sample_defaults : ItemProps :=
  {| backgroundColor := VNull; image := VNull;
     imageOpacity := VNumber 1; imageRadius := VNumber 0.5;
     imageRotation := VNumber 0; imageScale := VNumber 1;
     label := VString ""; labelColor := VNull;
     value := VString "none"; weight := VNumber 1 |}.

(** Defaults whose image is a url. *)
Definition branded_defaults : ItemProps :=
  {| backgroundColor := VNull; image := VString "logo.png";
     imageOpacity := VNumber 1; imageRadius := VNumber 0.5;
     imageRotation := VNumber 0; imageScale := VNumber 1;
     label := VString ""; labelColor := VNull;
     value := VNull; weight := VNumber 1 |}.

(** A loader that returns the image element it creates, as an object whose
    [src] is the url. *)
Definition image_element (n : nat) (url : JSValue) : JSValue :=
  VObject {[ "src" := url ]}.

(** A loader that returns nothing. *)
Definition no_element (n : nat) (url : JSValue) : JSValue := VNull.

Definition sample_item : Item :=
  {| _wheel := VRef 0; path := VRef 2; _imageObj := VNull;
     _backgroundColor := VNull; _image := VNull;
     _imageOpacity := VNumber 1; _imageRadius := VNumber 0.5;
     _imageRotation := VNumber 0; _imageScale := VNumber 1;
     _label := VString "one"; _labelColor := VNull;
     _value := VNumber 7; _weight := VNumber 1 |}.

(** A wheel at address [0] whose sequence holds the items at [1] and [3],
    of equal weight. *)
Definition sample_wheel : IWheel :=
  {| items := [1; 3];
     getItemAngles := [ {| start := 0; end_ := 180 |}; {| start := 180; end_ := 360 |} ];
     refreshes := 0 |}.

(** A wheel with the single item at [1], which spans the circle. *)
Definition single_wheel : IWheel :=
  {| items := [1];
     getItemAngles := [ {| start := 0; end_ := 360 |} ];
     refreshes := 0 |}.

(** A wheel from whose sequence the item at [1] has been removed. *)
Definition emptied_wheel : IWheel :=
  {| items := [3];
     getItemAngles := [ {| start := 0; end_ := 360 |} ];
     refreshes := 0 |}.

(** A wheel of two items of weights 2 and 5, the item at [1] second, with
    the table that the shares of 360 give in doubles. *)
Definition sevenths_wheel : IWheel :=
  {| items := [3; 1];
     getItemAngles := [ {| start := 0; end_ := 2 * (360 / 7) |};
                        {| start := 2 * (360 / 7); end_ := 360 |} ];
     refreshes := 0 |}.

(** A wheel of three items of weights 1, 1 and 2, the item at [1] second. *)
Definition weighted_wheel : IWheel :=
  {| items := [3; 1; 4];
     getItemAngles := [ {| start := 0; end_ := 90 |}; {| start := 90; end_ := 180 |};
                        {| start := 180; end_ := 360 |} ];
     refreshes := 0 |}.

(** A wheel whose table has an entry for the first of its two items only. *)
Definition short_wheel : IWheel :=
  {| items := [3; 1];
     getItemAngles := [ {| start := 0; end_ := 360 |} ];
     refreshes := 0 |}.

(** A property bag with a label, a weight of the wrong type and no other key. *)
Definition sample_bag : gmap string JSValue :=
  {[ "label" := VString "two"; "weight" := VString "heavy" ]}.

(** A second item of the wheel at [0], at the address [3]. *)
Definition other_item : Item :=
  {| _wheel := VRef 0; path := VRef 4; _imageObj := VNull;
     _backgroundColor := VString "#fff"; _image := VNull;
     _imageOpacity := VNumber 1; _imageRadius := VNumber 0.5;
     _imageRotation := VNumber 0; _imageScale := VNumber 1;
     _label := VString "two"; _labelColor := VNull;
     _value := VNull; _weight := VNumber 2 |}.

(** The two items of [sample_wheel], both in the heap. *)
Definition crowded_world : World :=
  {| heap := {[ 0 := HWheel sample_wheel; 1 := HItem sample_item; 2 := HPath2D;
                3 := HItem other_item; 4 := HPath2D ]};
     loading := ∅;
     requests := 0 |}.

Definition world_of (w : IWheel) : World :=
  {| heap := {[ 0 := HWheel w; 1 := HItem sample_item; 2 := HPath2D ]};
     loading := ∅;
     requests := 0 |}.

Definition sample_world : World := world_of sample_wheel.

(** * Properties *)

(** ** Running monadic code *)

Lemma returns_ret {A} (a : A) σ (Q : A → World → Prop) :
  Q a σ → returns (mret a) σ Q.
Proof. intros HQ. exists a, σ. split; [reflexivity | exact HQ]. Qed.

Lemma returns_bind {A B} (m : M A) (k : A → M B) σ (Q : B → World → Prop) :
  returns m σ (fun a σ' => returns (k a) σ' Q) → returns (m ≫= k) σ Q.
Proof.
  intros (a & σ1 & Hm & b & σ2 & Hk & HQ).
  exists b, σ2. split; [| exact HQ].
  unfold mbind, M_bind. rewrite Hm. exact Hk.
Qed.

Lemma returns_weaken {A} (m : M A) σ (P Q : A → World → Prop) :
  returns m σ P → (∀ a σ', P a σ' → Q a σ') → returns m σ Q.
Proof. intros (a & σ' & Hm & HP) HPQ. exists a, σ'. eauto. Qed.

Lemma throws_bind {A B} (m : M A) (k : A → M B) σ e σ' :
  m σ = (Throw e, σ') → (m ≫= k) σ = (Throw e, σ').
Proof. intros Hm. unfold mbind, M_bind. rewrite Hm. reflexivity. Qed.

Lemma bind_run {A B} (m : M A) (k : A → M B) σ a σ' :
  m σ = (Ok a, σ') → (m ≫= k) σ = k a σ'.
Proof. intros Hm. unfold mbind, M_bind. rewrite Hm. reflexivity. Qed.

(** ** The heap primitives *)

Lemma this_item_run σ this it :
  heap σ !! this = Some (HItem it) → this_item this σ = (Ok it, σ).
Proof. intros H. unfold this_item. rewrite H. reflexivity. Qed.

Lemma update_run σ this it upd :
  heap σ !! this = Some (HItem it) →
  update this upd σ = (Ok (), set_heap (<[this := HItem (upd it)]> (heap σ)) σ).
Proof.
  intros H. unfold update. rewrite (bind_run _ _ _ _ _ (this_item_run _ _ _ H)).
  reflexivity.
Qed.

Lemma wheel_refresh_run σ this it w ws :
  owned_by σ this it w ws →
  wheel_refresh this σ
  = (Ok (), set_heap (<[w := HWheel (refreshed ws)]> (heap σ)) σ).
Proof.
  intros (Hi & Hw & Hws). unfold wheel_refresh.
  rewrite (bind_run _ _ _ _ _ (this_item_run _ _ _ Hi)).
  unfold refresh. rewrite Hw, Hws. reflexivity.
Qed.

Lemma owned_by_distinct σ this it w ws : owned_by σ this it w ws → this ≠ w.
Proof. intros (Hi & _ & Hws) ->. congruence. Qed.

Lemma owned_by_update σ this it w ws upd :
  owned_by σ this it w ws → _wheel (upd it) = _wheel it →
  owned_by (set_heap (<[this := HItem (upd it)]> (heap σ)) σ) this (upd it) w ws.
Proof.
  intros Ho Hupd. pose proof (owned_by_distinct _ _ _ _ _ Ho) as Hne.
  destruct Ho as (Hi & Hw & Hws). repeat split; simpl.
  - apply lookup_insert_eq.
  - congruence.
  - rewrite lookup_insert_ne by exact Hne. exact Hws.
Qed.

Lemma owned_by_refreshed σ this it w ws :
  owned_by σ this it w ws →
  owned_by (set_heap (<[w := HWheel (refreshed ws)]> (heap σ)) σ) this it w (refreshed ws).
Proof.
  intros Ho. pose proof (owned_by_distinct _ _ _ _ _ Ho) as Hne.
  destruct Ho as (Hi & Hw & Hws). repeat split; simpl.
  - rewrite lookup_insert_ne by congruence. exact Hi.
  - exact Hw.
  - apply lookup_insert_eq.
Qed.

Lemma store_wheel_same f v it : _wheel (store f v it) = _wheel it.
Proof. reflexivity. Qed.

Lemma frame_refl σ this w : frame σ σ this w.
Proof. intros l _ _. reflexivity. Qed.

Lemma frame_trans σ1 σ2 σ3 this w :
  frame σ1 σ2 this w → frame σ2 σ3 this w → frame σ1 σ3 this w.
Proof. intros H12 H23 l H1 H2. rewrite H23, H12; auto. Qed.

Lemma frame_insert_this σ this w o :
  frame σ (set_heap (<[this := o]> (heap σ)) σ) this w.
Proof. intros l H1 H2. simpl. apply lookup_insert_ne. congruence. Qed.

Lemma frame_insert_wheel σ this w o :
  frame σ (set_heap (<[w := o]> (heap σ)) σ) this w.
Proof. intros l H1 H2. simpl. apply lookup_insert_ne. congruence. Qed.

Lemma update_returns σ this it w ws upd :
  owned_by σ this it w ws → _wheel (upd it) = _wheel it →
  returns (update this upd) σ (quiet_post σ this (upd it) w ws).
Proof.
  intros Ho Hupd. eexists _, _. split.
  - apply update_run. apply Ho.
  - split; [now apply owned_by_update |].
    split; [apply frame_insert_this | split; reflexivity].
Qed.

Lemma wheel_refresh_returns σ this it w ws :
  owned_by σ this it w ws →
  returns (wheel_refresh this) σ (quiet_post σ this it w (refreshed ws)).
Proof.
  intros Ho. eexists _, _. split.
  - eapply wheel_refresh_run, Ho.
  - split; [now apply owned_by_refreshed |].
    split; [apply frame_insert_wheel | split; reflexivity].
Qed.

Lemma update_then_refresh σ this it w ws upd :
  owned_by σ this it w ws → _wheel (upd it) = _wheel it →
  returns (update this upd;; wheel_refresh this) σ
          (quiet_post σ this (upd it) w (refreshed ws)).
Proof.
  intros Ho Hupd. apply returns_bind.
  eapply returns_weaken; [apply update_returns; eassumption |].
  intros [] σ1 (Ho1 & Hf1 & Hl1 & Hr1).
  eapply returns_weaken; [eapply wheel_refresh_returns, Ho1 |].
  intros [] σ2 (Ho2 & Hf2 & Hl2 & Hr2).
  split; [exact Ho2 |]. split; [eapply frame_trans; eauto |].
  split; congruence.
Qed.

(** ** The setters *)

Section Setters.

Variable D : ItemProps.
Variable L : nat → JSValue → JSValue.

Lemma loadImage_returns_element σ this it w ws url cb :
  owned_by σ this it w ws →
  returns (loadImage L url cb) σ (fun img σ' =>
    img = L (requests σ) url ∧ owned_by σ' this it w ws ∧ frame σ σ' this w ∧
    loading σ' = <[requests σ := cb]> (loading σ) ∧
    requests σ' = S (requests σ)).
Proof.
  intros Ho. eexists _, _. split; [reflexivity |].
  split; [reflexivity |]. split; [exact Ho |].
  split; [intros l _ _; reflexivity | split; reflexivity].
Qed.

Ltac simple_setter E :=
  eapply returns_weaken;
  [ apply update_then_refresh; [eassumption | reflexivity]
  | intros [] ? (? & ? & ? & ?); unfold setter_post, assigned, validated;
    simpl; rewrite ?E; auto ].

Ltac silent_setter E :=
  eapply returns_weaken;
  [ apply update_returns; [eassumption | reflexivity]
  | intros [] ? (? & ? & ? & ?); unfold setter_post, assigned, validated;
    simpl; rewrite ?E; auto ].

Lemma set_image_returns val σ this it w ws :
  owned_by σ this it w ws →
  returns (set_image D L this val) σ (setter_post D L Image val σ this it w ws).
Proof.
  intros Ho. unfold set_image, setter_post, assigned, loads.
  destruct (JSType_eqb (typeof val) TString) eqn:E; apply returns_bind.
  - (* a url: store it, start the load, keep what the loader returns *)
    apply returns_bind.
    eapply returns_weaken; [apply update_returns; [exact Ho | reflexivity] |].
    intros [] σ1 (Ho1 & Hf1 & Hl1 & Hr1).
    apply returns_bind.
    eapply returns_weaken; [eapply loadImage_returns_element, Ho1 |].
    intros img σ2 (-> & Ho2 & Hf2 & Hl2 & Hr2).
    eapply returns_weaken; [apply update_returns; [exact Ho2 | reflexivity] |].
    intros [] σ3 (Ho3 & Hf3 & Hl3 & Hr3).
    eapply returns_weaken; [eapply wheel_refresh_returns, Ho3 |].
    intros [] σ4 (Ho4 & Hf4 & Hl4 & Hr4). simpl.
    rewrite <- Hr1. split; [exact Ho4 |].
    split; [eauto using frame_trans |]. split; congruence.
  - (* anything else: back to the default, and no image element *)
    apply returns_bind.
    eapply returns_weaken; [apply update_returns; [exact Ho | reflexivity] |].
    intros [] σ1 (Ho1 & Hf1 & Hl1 & Hr1).
    eapply returns_weaken; [apply update_returns; [exact Ho1 | reflexivity] |].
    intros [] σ2 (Ho2 & Hf2 & Hl2 & Hr2).
    eapply returns_weaken; [eapply wheel_refresh_returns, Ho2 |].
    intros [] σ3 (Ho3 & Hf3 & Hl3 & Hr3). simpl.
    split; [exact Ho3 |].
    split; [eauto using frame_trans |]. split; congruence.
Qed.

(** Every setter runs to completion on an item that has its wheel, and
    leaves the item, the wheel and the loads as [setter_post] says. *)
Lemma setter_returns f val σ this it w ws :
  owned_by σ this it w ws →
  returns (setter D L f this val) σ (setter_post D L f val σ this it w ws).
Proof.
  intros Ho. destruct f; simpl setter.
  - unfold set_backgroundColor.
    destruct (JSType_eqb (typeof val) TString) eqn:E; simple_setter E.
  - now apply set_image_returns.
  - unfold set_imageOpacity.
    destruct (JSType_eqb (typeof val) TNumber) eqn:E; simple_setter E.
  - unfold set_imageRadius.
    destruct (JSType_eqb (typeof val) TNumber) eqn:E; simple_setter E.
  - unfold set_imageRotation.
    destruct (JSType_eqb (typeof val) TNumber) eqn:E; simple_setter E.
  - unfold set_imageScale.
    destruct (JSType_eqb (typeof val) TNumber) eqn:E; simple_setter E.
  - unfold set_label.
    destruct (JSType_eqb (typeof val) TString) eqn:E; simple_setter E.
  - unfold set_labelColor.
    destruct (JSType_eqb (typeof val) TString) eqn:E; simple_setter E.
  - unfold set_value.
    destruct (is_undefined val) eqn:E; simpl; silent_setter E.
  - unfold set_weight.
    destruct (JSType_eqb (typeof val) TNumber) eqn:E; silent_setter E.
Qed.

Lemma getter_run f σ this it :
  heap σ !! this = Some (HItem it) →
  getter f this σ = (Ok (private it f), σ).
Proof.
  intros Hi.
  destruct f; simpl; unfold get_backgroundColor, get_image, get_imageOpacity,
    get_imageRadius, get_imageRotation, get_imageScale, get_label,
    get_labelColor, get_value, get_weight;
    rewrite (bind_run _ _ _ _ _ (this_item_run _ _ _ Hi)); reflexivity.
Qed.

Lemma get_imageObj_run σ this it :
  heap σ !! this = Some (HItem it) →
  get_imageObj this σ = (Ok (_imageObj it), σ).
Proof.
  intros Hi. unfold get_imageObj.
  rewrite (bind_run _ _ _ _ _ (this_item_run _ _ _ Hi)). reflexivity.
Qed.

Lemma private_assigned f val n it :
  f ≠ Image →
  private (assigned D L f val n it) f = validated D f val.
Proof. intros Hf. destruct f; try reflexivity. congruence. Qed.

Lemma private_assigned_image val n it :
  private (assigned D L Image val n it) Image = validated D Image val.
Proof.
  unfold assigned, validated. simpl.
  destruct (JSType_eqb (typeof val) TString); reflexivity.
Qed.

End Setters.

(** ** Validation and defaulting of the fields *)

(** C1.  For every field but [value], on an item that has its wheel, the
    setter never throws, and the property then reads as the candidate when
    the candidate has the type the field expects (string for
    backgroundColor, image, label, labelColor; number for imageOpacity,
    imageRadius, imageRotation, imageScale, weight), and otherwise as the
    default of the field in [Defaults.item]. *)
Theorem setter_validates_or_defaults D L f ty val σ this it w ws :
  expected f = Some ty →
  owned_by σ this it w ws →
  ∃ σ', setter D L f this val σ = (Ok (), σ') ∧
        getter f this σ'
        = (Ok (if JSType_eqb (typeof val) ty then val else prop D f), σ').
Proof.
  intros Hty Ho.
  destruct (setter_returns D L f val σ this it w ws Ho)
    as ([] & σ' & Hrun & (Hi & _ & _) & _).
  exists σ'. split; [exact Hrun |].
  rewrite (getter_run f σ' this _ Hi). f_equal. f_equal.
  destruct f; simpl in Hty; inversion Hty; subst ty;
    try reflexivity.
  apply private_assigned_image.
Qed.

Lemma setter_validates_or_defaults_witness :
  expected Label = Some TString ∧
  owned_by sample_world 1 sample_item 0 sample_wheel ∧
  ∃ σ', setter sample_defaults image_element Label 1 (VNumber 3) sample_world
        = (Ok (), σ') ∧
        getter Label 1 σ' = (Ok (VString ""), σ').
Proof.
  split; [reflexivity |].
  split; [unfold owned_by; repeat split; vm_compute; reflexivity |].
  apply (setter_validates_or_defaults sample_defaults image_element Label TString
           (VNumber 3) sample_world 1 sample_item 0 sample_wheel).
  - reflexivity.
  - unfold owned_by; repeat split; vm_compute; reflexivity.
Defined.

(** ** The re-render signal *)

(** C7.  An assignment to any field but [value] and [weight], whatever the
    candidate, calls [refresh()] of the owning wheel, once and before the
    setter returns; an assignment to [value] leaves every wheel of the heap
    as it was, so it calls no [refresh()]. *)
Theorem assignment_signals_refresh D L f val σ this it w ws :
  owned_by σ this it w ws →
  ∃ σ', setter D L f this val σ = (Ok (), σ') ∧
        (notifies f = true → heap σ' !! w = Some (HWheel (refreshed ws))) ∧
        (f = Value →
         ∀ l ws0, heap σ !! l = Some (HWheel ws0) → heap σ' !! l = Some (HWheel ws0)).
Proof.
  intros Ho.
  destruct (setter_returns D L f val σ this it w ws Ho)
    as ([] & σ' & Hrun & (Hi & Hw & Hws) & Hframe & _).
  exists σ'. split; [exact Hrun |]. split.
  - intros Hn. rewrite Hn in Hws. exact Hws.
  - intros -> l ws0 Hl. simpl in Hws.
    destruct (decide (l = w)) as [-> | Hlw].
    + destruct Ho as (_ & _ & Hws0). congruence.
    + destruct (decide (l = this)) as [-> | Hlt].
      * destruct Ho as (Hi0 & _). congruence.
      * rewrite Hframe by assumption. exact Hl.
Qed.

Lemma assignment_signals_refresh_witness :
  owned_by sample_world 1 sample_item 0 sample_wheel ∧
  ∃ σ', setter sample_defaults image_element Label 1 (VNumber 3) sample_world
        = (Ok (), σ') ∧
        (notifies Label = true → heap σ' !! 0 = Some (HWheel (refreshed sample_wheel))) ∧
        (Label = Value →
         ∀ l ws0, heap sample_world !! l = Some (HWheel ws0) →
                  heap σ' !! l = Some (HWheel ws0)).
Proof.
  split; [unfold owned_by; repeat split; vm_compute; reflexivity |].
  apply (assignment_signals_refresh sample_defaults image_element Label
           (VNumber 3) sample_world 1 sample_item 0 sample_wheel).
  unfold owned_by; repeat split; vm_compute; reflexivity.
Defined.

(** ** The opaque payload [value] *)

(** C9.  On an item, assigning to [value] a candidate other than
    [undefined] makes the property read as that very candidate, whatever it
    is; assigning [undefined] makes it read as the default of [value]. *)
Theorem value_kept_as_is D val σ this it :
  heap σ !! this = Some (HItem it) →
  ∃ σ', set_value D this val σ = (Ok (), σ') ∧
        (val ≠ VUndefined → get_value this σ' = (Ok val, σ')) ∧
        (val = VUndefined → get_value this σ' = (Ok (value D), σ')).
Proof.
  intros Hi. unfold set_value.
  destruct val; simpl;
    rewrite (update_run _ _ _ _ Hi);
    (eexists; split; [reflexivity |]);
    (split; intros Hv;
     [ try congruence | try discriminate ]);
    unfold get_value;
    (erewrite bind_run; [| apply this_item_run; simpl; apply lookup_insert_eq]);
    reflexivity.
Qed.

Lemma value_kept_as_is_witness :
  heap sample_world !! 1 = Some (HItem sample_item) ∧
  ∃ σ', set_value sample_defaults 1 (VObject {[ "id" := VNumber 42 ]}) sample_world
        = (Ok (), σ') ∧
        (VObject {[ "id" := VNumber 42 ]} ≠ VUndefined →
         get_value 1 σ' = (Ok (VObject {[ "id" := VNumber 42 ]}), σ')) ∧
        (VObject {[ "id" := VNumber 42 ]} = VUndefined →
         get_value 1 σ' = (Ok (value sample_defaults), σ')).
Proof.
  split; [vm_compute; reflexivity |].
  apply (value_kept_as_is sample_defaults (VObject {[ "id" := VNumber 42 ]})
           sample_world 1 sample_item).
  vm_compute; reflexivity.
Defined.

(** C10.  The unset sentinel of [value] is [undefined] and nothing else:
    assigning [null] makes the property read as [null], assigning
    [undefined] makes it read as the default of [value], and an assignment
    after which the property does not read as the candidate was an
    assignment of [undefined]. *)
Theorem null_is_a_payload D σ this it :
  heap σ !! this = Some (HItem it) →
  (∃ σ', set_value D this VNull σ = (Ok (), σ') ∧
         get_value this σ' = (Ok VNull, σ')) ∧
  (∃ σ', set_value D this VUndefined σ = (Ok (), σ') ∧
         get_value this σ' = (Ok (value D), σ')) ∧
  (∀ val σ', set_value D this val σ = (Ok (), σ') →
             get_value this σ' ≠ (Ok val, σ') → val = VUndefined).
Proof.
  intros Hi.
  assert (Hget : ∀ v, get_value this (set_heap (<[this := HItem (store Value v it)]> (heap σ)) σ)
                      = (Ok v, set_heap (<[this := HItem (store Value v it)]> (heap σ)) σ)).
  { intros v. unfold get_value.
    erewrite bind_run; [| apply this_item_run; simpl; apply lookup_insert_eq].
    reflexivity. }
  split; [| split].
  - eexists. split; [apply (update_run _ _ _ _ Hi) | apply Hget].
  - eexists. split; [apply (update_run _ _ _ _ Hi) | apply Hget].
  - intros val σ' Hset Hne. unfold set_value in Hset.
    destruct (is_undefined val) eqn:E.
    + destruct val; simpl in E; congruence.
    + simpl in Hset. rewrite (update_run _ _ _ _ Hi) in Hset.
      inversion Hset; subst σ'. exfalso. apply Hne, Hget.
Qed.

Lemma null_is_a_payload_witness :
  heap sample_world !! 1 = Some (HItem sample_item) ∧
  (∃ σ', set_value sample_defaults 1 VNull sample_world = (Ok (), σ') ∧
         get_value 1 σ' = (Ok VNull, σ')) ∧
  (∃ σ', set_value sample_defaults 1 VUndefined sample_world = (Ok (), σ') ∧
         get_value 1 σ' = (Ok (VString "none"), σ')) ∧
  (∀ val σ', set_value sample_defaults 1 val sample_world = (Ok (), σ') →
             get_value 1 σ' ≠ (Ok val, σ') → val = VUndefined).
Proof.
  split; [vm_compute; reflexivity |].
  apply (null_is_a_payload sample_defaults sample_world 1 sample_item).
  vm_compute; reflexivity.
Defined.

(** ** Image binding *)

(** A call of [refresh()], whether it returns or throws, writes to a wheel
    only. *)
Lemma wheel_refresh_effect this0 σ :
  let σ' := (wheel_refresh this0 σ).2 in
  (∀ l it, heap σ !! l = Some (HItem it) → heap σ' !! l = Some (HItem it)) ∧
  (∀ l ws, heap σ !! l = Some (HWheel ws) → ∃ ws', heap σ' !! l = Some (HWheel ws')) ∧
  loading σ' = loading σ ∧ requests σ' = requests σ.
Proof.
  unfold wheel_refresh, mbind, M_bind, this_item.
  destruct (heap σ !! this0) as [[it0 | ws0 |] |] eqn:E0; simpl; eauto 6.
  unfold refresh.
  destruct (_wheel it0); simpl; eauto 6.
  destruct (heap σ !! l) as [[it1 | ws1 |] |] eqn:E1; simpl; eauto 6.
  repeat split.
  - intros l0 it Hl0. rewrite lookup_insert_ne by congruence. exact Hl0.
  - intros l0 ws Hl0. destruct (decide (l = l0)) as [-> | Hne].
    + rewrite lookup_insert_eq. eauto.
    + rewrite lookup_insert_ne by exact Hne. eauto.
Qed.

(** The completion of a load never throws and writes to a wheel only: no
    field of any item changes, and no load is requested. *)
Lemma complete_effect r σ :
  ∃ σ', complete r σ = (Ok (), σ') ∧
    (∀ l it, heap σ !! l = Some (HItem it) → heap σ' !! l = Some (HItem it)) ∧
    (∀ l ws, heap σ !! l = Some (HWheel ws) → ∃ ws', heap σ' !! l = Some (HWheel ws')) ∧
    requests σ' = requests σ.
Proof.
  unfold complete. destruct (loading σ !! r) as [[this0] |].
  - eexists. split; [reflexivity |].
    match goal with |- context [wheel_refresh this0 ?s] =>
      destruct (wheel_refresh_effect this0 s) as (Hi & Hw & _ & Hr) end.
    split; [exact Hi | split; [exact Hw | exact Hr]].
  - eexists. split; [reflexivity |]. eauto.
Qed.

Lemma completions_effect rs σ this it w ws :
  owned_by σ this it w ws →
  returns (completions rs) σ (fun _ σ' =>
    (∃ ws', owned_by σ' this it w ws') ∧ requests σ' = requests σ).
Proof.
  revert σ ws. induction rs as [| r rs IH]; intros σ ws Ho.
  - apply returns_ret. eauto.
  - unfold completions. simpl. apply returns_bind.
    destruct (complete_effect r σ) as (σ1 & Hrun & Hi & Hw & Hr).
    exists (), σ1. split; [exact Hrun |].
    destruct Ho as (Hit & Hwheel & Hws).
    destruct (Hw _ _ Hws) as (ws1 & Hws1).
    eapply returns_weaken; [apply (IH σ1 ws1); repeat split; eauto |].
    intros [] σ2 (Ho2 & Hr2). split; [exact Ho2 | congruence].
Qed.

Lemma get_image_run σ this it :
  heap σ !! this = Some (HItem it) → get_image this σ = (Ok (_image it), σ).
Proof. apply (getter_run Image). Qed.

(** The completion of a load that the item requested, on an item that has
    its wheel: one more [refresh()], and the load is no longer in flight. *)
Lemma complete_own r σ this it w ws :
  owned_by σ this it w ws → loading σ !! r = Some (RefreshOnLoad this) →
  ∃ σ', complete r σ = (Ok (), σ') ∧
        owned_by σ' this it w (refreshed ws) ∧ frame σ σ' this w ∧
        loading σ' = delete r (loading σ) ∧ requests σ' = requests σ.
Proof.
  intros Ho Hl. unfold complete. rewrite Hl.
  eexists. split; [reflexivity |].
  match goal with |- context [wheel_refresh this ?s] =>
    assert (Ho' : owned_by s this it w ws) by exact Ho;
    rewrite (wheel_refresh_run s this it w ws Ho')
  end.
  cbn [snd]. split; [apply (owned_by_refreshed _ _ _ _ _ Ho') |].
  split; [| split; reflexivity].
  intros l _ Hlw. cbn [heap set_heap]. apply lookup_insert_ne. congruence.
Qed.

(** C4, as the code has it.  On an item that has its wheel, assigning a
    string to [image] makes [image] read as that string and [imageObj] read,
    from that moment, as what [util.loadImage] returned for the request; the
    wheel has been signalled once and the load is in flight.  Its
    completion calls [refresh()] of the wheel once more and does nothing
    else: [image] and [imageObj] read as before, every object of the heap
    but the wheel is as it was, the load is no longer in flight and none
    has been requested.  Assigning anything else makes [image] read as its
    default and [imageObj] as [null]. *)
Theorem image_binding D L val σ this it w ws :
  owned_by σ this it w ws →
  ∃ σ', set_image D L this val σ = (Ok (), σ') ∧
    (typeof val = TString →
       get_image this σ' = (Ok val, σ') ∧
       get_imageObj this σ' = (Ok (L (requests σ) val), σ') ∧
       loading σ' !! requests σ = Some (RefreshOnLoad this) ∧
       heap σ' !! w = Some (HWheel (refreshed ws)) ∧
       ∃ σ'', complete (requests σ) σ' = (Ok (), σ'') ∧
              get_image this σ'' = (Ok val, σ'') ∧
              get_imageObj this σ'' = (Ok (L (requests σ) val), σ'') ∧
              heap σ'' !! w = Some (HWheel (refreshed (refreshed ws))) ∧
              (∀ l, l ≠ w → heap σ'' !! l = heap σ' !! l) ∧
              loading σ'' = delete (requests σ) (loading σ') ∧
              requests σ'' = requests σ') ∧
    (typeof val ≠ TString →
       get_image this σ' = (Ok (image D), σ') ∧
       get_imageObj this σ' = (Ok VNull, σ')).
Proof.
  intros Ho.
  destruct (set_image_returns D L val σ this it w ws Ho)
    as ([] & σ' & Hrun & Ho' & _ & Hl & _).
  exists σ'. split; [exact Hrun |].
  pose proof (proj1 Ho') as Hi.
  unfold assigned in Hi. cbn [loads notifies] in Hl, Ho'. split; intros Hty.
  - assert (E : JSType_eqb (typeof val) TString = true) by (rewrite Hty; reflexivity).
    rewrite E in Hi, Hl.
    split; [rewrite (get_image_run _ _ _ Hi); reflexivity |].
    split; [rewrite (get_imageObj_run _ _ _ Hi); reflexivity |].
    assert (Hflight : loading σ' !! requests σ = Some (RefreshOnLoad this))
      by (rewrite Hl; apply lookup_insert_eq).
    split; [exact Hflight |].
    split; [apply Ho' |].
    destruct (complete_own (requests σ) σ' this _ w _ Ho' Hflight)
      as (σ'' & Hc & Ho'' & Hframe & Hl'' & Hr'').
    exists σ''. split; [exact Hc |].
    pose proof (proj1 Ho'') as Hi''. unfold assigned in Hi''. rewrite E in Hi''.
    split; [rewrite (get_image_run _ _ _ Hi''); reflexivity |].
    split; [rewrite (get_imageObj_run _ _ _ Hi''); reflexivity |].
    split; [apply Ho'' |].
    split; [| split; assumption].
    intros l Hlw. destruct (decide (l = this)) as [-> | Hlt].
    + rewrite Hi, Hi''. reflexivity.
    + now apply Hframe.
  - assert (E : JSType_eqb (typeof val) TString = false)
      by (destruct (typeof val); simpl; congruence).
    rewrite E in Hi.
    split; [rewrite (get_image_run _ _ _ Hi); reflexivity |].
    rewrite (get_imageObj_run _ _ _ Hi). reflexivity.
Qed.

Lemma image_binding_witness :
  owned_by sample_world 1 sample_item 0 sample_wheel ∧
  ∃ σ', set_image sample_defaults image_element 1 (VString "a.png") sample_world
        = (Ok (), σ') ∧
    (typeof (VString "a.png") = TString →
       get_image 1 σ' = (Ok (VString "a.png"), σ') ∧
       get_imageObj 1 σ' = (Ok (image_element 0 (VString "a.png")), σ') ∧
       loading σ' !! 0 = Some (RefreshOnLoad 1) ∧
       heap σ' !! 0 = Some (HWheel (refreshed sample_wheel)) ∧
       ∃ σ'', complete 0 σ' = (Ok (), σ'') ∧
              get_image 1 σ'' = (Ok (VString "a.png"), σ'') ∧
              get_imageObj 1 σ'' = (Ok (image_element 0 (VString "a.png")), σ'') ∧
              heap σ'' !! 0 = Some (HWheel (refreshed (refreshed sample_wheel))) ∧
              (∀ l, l ≠ 0 → heap σ'' !! l = heap σ' !! l) ∧
              loading σ'' = delete 0 (loading σ') ∧
              requests σ'' = requests σ') ∧
    (typeof (VString "a.png") ≠ TString →
       get_image 1 σ' = (Ok (image sample_defaults), σ') ∧
       get_imageObj 1 σ' = (Ok VNull, σ')).
Proof.
  split; [unfold owned_by; repeat split; vm_compute; reflexivity |].
  apply (image_binding sample_defaults image_element (VString "a.png")
           sample_world 1 sample_item 0 sample_wheel).
  unfold owned_by; repeat split; vm_compute; reflexivity.
Defined.

(** C4, as the specification has it, fails.  With a loader that returns the
    image element it creates, [imageObj] is that element, not [null] or
    [undefined], as soon as the assignment returns and before the load
    completes.  And whatever the loader returns, [imageObj] is not absent
    until the load completes and present from then on: the completion does
    not write it. *)
Lemma imageObj_is_not_deferred :
  (let σ1 := (set_image sample_defaults image_element 1 (VString "a.png") sample_world).2 in
   loading σ1 !! 0 = Some (RefreshOnLoad 1) ∧
   (get_imageObj 1 σ1).1 ≠ Ok VNull ∧ (get_imageObj 1 σ1).1 ≠ Ok VUndefined) ∧
  ¬ ∃ L : nat → JSValue → JSValue,
      let σ1 := (set_image sample_defaults L 1 (VString "a.png") sample_world).2 in
      let σ2 := (complete 0 σ1).2 in
      ((get_imageObj 1 σ1).1 = Ok VNull ∨ (get_imageObj 1 σ1).1 = Ok VUndefined) ∧
      (get_imageObj 1 σ2).1 ≠ Ok VNull ∧ (get_imageObj 1 σ2).1 ≠ Ok VUndefined.
Proof.
  split.
  - split; [vm_compute; reflexivity |].
    split; vm_compute; discriminate.
  - intros (L & Hbefore & Hafter1 & Hafter2).
    assert (Ho : owned_by sample_world 1 sample_item 0 sample_wheel)
      by (unfold owned_by; repeat split; vm_compute; reflexivity).
    destruct (set_image_returns sample_defaults L (VString "a.png") _ _ _ _ _ Ho)
      as ([] & σ' & Hrun & (Hi & _ & _) & _).
    destruct (complete_effect 0 σ') as (σ'' & Hc & Hkeep & _).
    rewrite Hrun in Hbefore, Hafter1, Hafter2. simpl in Hbefore, Hafter1, Hafter2.
    rewrite Hc in Hafter1, Hafter2. simpl in Hafter1, Hafter2.
    rewrite (get_imageObj_run _ _ _ Hi) in Hbefore.
    rewrite (get_imageObj_run _ _ _ (Hkeep _ _ Hi)) in Hafter1, Hafter2.
    simpl in *. destruct Hbefore as [Hb | Hb]; congruence.
Qed.

(** C5.  On an item that has its wheel, after two assignments of urls to
    [image], with any loads completing between them and any loads
    completing after them, in any order (the first request may complete
    after the second assignment, after the second request, or not at all),
    [image] reads as the second url and [imageObj] as what the loader
    returned for the second request. *)
Theorem latest_image_wins D L s1 s2 before after σ this it w ws :
  owned_by σ this it w ws →
  ∃ σ', (set_image D L this (VString s1);; completions before;;
         set_image D L this (VString s2);; completions after) σ = (Ok (), σ') ∧
        get_image this σ' = (Ok (VString s2), σ') ∧
        get_imageObj this σ' = (Ok (L (S (requests σ)) (VString s2)), σ').
Proof.
  intros Ho.
  assert (Hrun : returns
            (set_image D L this (VString s1);; completions before;;
             set_image D L this (VString s2);; completions after) σ
            (fun _ σ' => ∃ it', heap σ' !! this = Some (HItem it') ∧
               _image it' = VString s2 ∧
               _imageObj it' = L (S (requests σ)) (VString s2))).
  { apply returns_bind.
    eapply returns_weaken; [apply set_image_returns, Ho |].
    intros [] σ1 (Ho1 & _ & _ & Hr1). simpl in Hr1.
    apply returns_bind.
    eapply returns_weaken; [eapply completions_effect, Ho1 |].
    intros [] σ2 ((ws2 & Ho2) & Hr2).
    apply returns_bind.
    eapply returns_weaken; [apply set_image_returns, Ho2 |].
    intros [] σ3 (Ho3 & _). simpl in Ho3.
    eapply returns_weaken; [eapply completions_effect, Ho3 |].
    intros [] σ4 ((ws4 & Hi4 & _) & _).
    eexists. split; [exact Hi4 |].
    rewrite Hr2, Hr1. split; reflexivity. }
  destruct Hrun as ([] & σ' & Hrun & it' & Hi & Himg & Hobj).
  exists σ'. split; [exact Hrun |].
  rewrite (get_image_run _ _ _ Hi), (get_imageObj_run _ _ _ Hi), Himg, Hobj.
  split; reflexivity.
Qed.

Lemma latest_image_wins_witness :
  owned_by sample_world 1 sample_item 0 sample_wheel ∧
  ∃ σ', (set_image sample_defaults image_element 1 (VString "slow.png");;
         completions [];;
         set_image sample_defaults image_element 1 (VString "fast.png");;
         completions [1; 0]) sample_world = (Ok (), σ') ∧
        get_image 1 σ' = (Ok (VString "fast.png"), σ') ∧
        get_imageObj 1 σ' = (Ok (image_element 1 (VString "fast.png")), σ').
Proof.
  split; [unfold owned_by; repeat split; vm_compute; reflexivity |].
  apply (latest_image_wins sample_defaults image_element "slow.png" "fast.png"
           [] [1; 0] sample_world 1 sample_item 0 sample_wheel).
  unfold owned_by; repeat split; vm_compute; reflexivity.
Defined.

(** ** Index and angle queries *)

Lemma findIndex_from_absent {A} (p : A → bool) l i :
  (∀ x, x ∈ l → p x = false) → findIndex_from p l i = (-1)%Z.
Proof.
  revert i. induction l as [| x l IH]; intros i Hall; simpl; [reflexivity |].
  rewrite (Hall x) by apply list_elem_of_here.
  apply IH. intros y Hy. apply Hall. now apply list_elem_of_further.
Qed.

Lemma findIndex_from_present {A} (p : A → bool) l i :
  (∃ x, x ∈ l ∧ p x = true) →
  ∃ n x, findIndex_from p l i = (i + Z.of_nat n)%Z ∧ l !! n = Some x ∧ p x = true ∧
         ∀ j y, j < n → l !! j = Some y → p y = false.
Proof.
  revert i. induction l as [| x l IH]; intros i (y & Hy & Hpy).
  - inversion Hy.
  - simpl. destruct (p x) eqn:Hpx.
    + exists 0, x. repeat split; [f_equal; lia | exact Hpx | intros; lia].
    + assert (Hin : ∃ x0, x0 ∈ l ∧ p x0 = true).
      { exists y. split; [| exact Hpy].
        apply elem_of_cons in Hy as [-> | Hy]; [congruence | exact Hy]. }
      destruct (IH (i + 1)%Z Hin) as (n & z & Hfind & Hz & Hpz & Hfirst).
      exists (S n), z. repeat split; [rewrite Hfind; lia | exact Hz | exact Hpz |].
      intros [| j] y0 Hj Hy0; simpl in Hy0.
      * congruence.
      * apply (Hfirst j); [lia | exact Hy0].
Qed.

Lemma wheel_state_run σ this it w ws :
  owned_by σ this it w ws → wheel_state (_wheel it) σ = (Ok ws, σ).
Proof. intros (_ & Hw & Hws). unfold wheel_state. rewrite Hw, Hws. reflexivity. Qed.

Lemma getIndex_absent σ this it w ws :
  owned_by σ this it w ws → this ∉ items ws →
  getIndex this σ = (Throw NotFound, σ).
Proof.
  intros Ho Hnot. unfold getIndex.
  rewrite (bind_run _ _ _ _ _ (this_item_run _ _ _ (proj1 Ho))).
  rewrite (bind_run _ _ _ _ _ (wheel_state_run _ _ _ _ _ Ho)).
  unfold findIndex. rewrite findIndex_from_absent; [reflexivity |].
  intros x Hx. apply Nat.eqb_neq. intros ->. contradiction.
Qed.

Lemma getIndex_present σ this it w ws :
  owned_by σ this it w ws → this ∈ items ws →
  ∃ n, getIndex this σ = (Ok (Z.of_nat n), σ) ∧ items ws !! n = Some this ∧
       ∀ j, j < n → items ws !! j ≠ Some this.
Proof.
  intros Ho Hin. unfold getIndex.
  rewrite (bind_run _ _ _ _ _ (this_item_run _ _ _ (proj1 Ho))).
  rewrite (bind_run _ _ _ _ _ (wheel_state_run _ _ _ _ _ Ho)).
  destruct (findIndex_from_present (fun i => Nat.eqb i this) (items ws) 0)
    as (n & x & Hfind & Hx & Hpx & Hfirst).
  { exists this. split; [exact Hin | apply Nat.eqb_refl]. }
  apply Nat.eqb_eq in Hpx. subst x.
  exists n. unfold findIndex. rewrite Hfind, Z.add_0_l.
  replace (Z.of_nat n =? -1)%Z with false by (symmetry; apply Z.eqb_neq; lia).
  split; [reflexivity |]. split; [exact Hx |].
  intros j Hj Hjn. specialize (Hfirst j this Hj Hjn).
  rewrite Nat.eqb_refl in Hfirst. discriminate.
Qed.

Lemma entry_run (angles : list Angle) n a σ :
  angles !! n = Some a → entry angles (Z.of_nat n) σ = (Ok a, σ).
Proof.
  intros Hn. unfold entry.
  replace (Z.of_nat n <? 0)%Z with false by (symmetry; apply Z.ltb_ge; lia).
  rewrite Nat2Z.id, Hn. reflexivity.
Qed.

(** The three angle queries on an item that is in the sequence of its wheel,
    at a position where the table has an entry. *)
Lemma angles_present σ this it w ws :
  owned_by σ this it w ws → this ∈ items ws →
  (List.length (items ws) ≤ List.length (getItemAngles ws))%nat →
  ∃ n a, items ws !! n = Some this ∧ getItemAngles ws !! n = Some a ∧
         getStartAngle this σ = (Ok (start a), σ) ∧
         getEndAngle this σ = (Ok (end_ a), σ) ∧
         getCenterAngle this σ = (Ok (start a + (end_ a - start a) / 2)%float, σ).
Proof.
  intros Ho Hin Hlen.
  destruct (getIndex_present _ _ _ _ _ Ho Hin) as (n & Hidx & Hn & _).
  destruct (lookup_lt_is_Some_2 (getItemAngles ws) n) as (a & Ha).
  { apply lookup_lt_Some in Hn. lia. }
  exists n, a. split; [exact Hn |]. split; [exact Ha |].
  unfold getStartAngle, getEndAngle, getCenterAngle.
  rewrite !(bind_run _ _ _ _ _ (this_item_run _ _ _ (proj1 Ho))).
  rewrite !(bind_run _ _ _ _ _ (wheel_state_run _ _ _ _ _ Ho)).
  rewrite !(bind_run _ _ _ _ _ Hidx).
  rewrite !(bind_run _ _ _ _ _ (entry_run _ _ _ _ Ha)).
  repeat split.
Qed.

Lemma angles_absent σ this it w ws :
  owned_by σ this it w ws → this ∉ items ws →
  getStartAngle this σ = (Throw NotFound, σ) ∧
  getEndAngle this σ = (Throw NotFound, σ) ∧
  getCenterAngle this σ = (Throw NotFound, σ).
Proof.
  intros Ho Hnot.
  pose proof (getIndex_absent _ _ _ _ _ Ho Hnot) as Hidx.
  unfold getStartAngle, getEndAngle, getCenterAngle.
  rewrite !(bind_run _ _ _ _ _ (this_item_run _ _ _ (proj1 Ho))).
  rewrite !(bind_run _ _ _ _ _ (wheel_state_run _ _ _ _ _ Ho)).
  rewrite !(throws_bind _ _ _ _ _ Hidx). repeat split.
Qed.

(** C3.  On an item that has its wheel: when the item is not in the
    sequence [items] of the wheel, [getIndex], [getStartAngle],
    [getEndAngle], [getCenterAngle] and [getRandomAngle] each throw the
    error "Item not found in parent Wheel"; when it is, [getIndex] returns
    the first position of the sequence that holds this very object, counted
    from zero. *)
Theorem stale_item_not_found σ this it w ws :
  owned_by σ this it w ws →
  (this ∉ items ws →
     getIndex this σ = (Throw NotFound, σ) ∧
     getStartAngle this σ = (Throw NotFound, σ) ∧
     getEndAngle this σ = (Throw NotFound, σ) ∧
     getCenterAngle this σ = (Throw NotFound, σ) ∧
     ∀ u, getRandomAngle u this σ = (Throw NotFound, σ)) ∧
  (this ∈ items ws →
     ∃ n, getIndex this σ = (Ok (Z.of_nat n), σ) ∧ items ws !! n = Some this ∧
          ∀ j, j < n → items ws !! j ≠ Some this).
Proof.
  intros Ho. split.
  - intros Hnot.
    destruct (angles_absent _ _ _ _ _ Ho Hnot) as (Hs & He & Hc).
    split; [now apply (getIndex_absent _ _ _ _ _ Ho) |].
    repeat split; try assumption.
    intros u. unfold getRandomAngle. now rewrite (throws_bind _ _ _ _ _ Hs).
  - now apply getIndex_present with it w.
Qed.

Lemma stale_item_not_found_witness :
  owned_by (world_of emptied_wheel) 1 sample_item 0 emptied_wheel ∧
  (1 ∉ items emptied_wheel →
     getIndex 1 (world_of emptied_wheel) = (Throw NotFound, world_of emptied_wheel) ∧
     getStartAngle 1 (world_of emptied_wheel) = (Throw NotFound, world_of emptied_wheel) ∧
     getEndAngle 1 (world_of emptied_wheel) = (Throw NotFound, world_of emptied_wheel) ∧
     getCenterAngle 1 (world_of emptied_wheel) = (Throw NotFound, world_of emptied_wheel) ∧
     ∀ u, getRandomAngle u 1 (world_of emptied_wheel)
          = (Throw NotFound, world_of emptied_wheel)) ∧
  (1 ∈ items emptied_wheel →
     ∃ n, getIndex 1 (world_of emptied_wheel) = (Ok (Z.of_nat n), world_of emptied_wheel) ∧
          items emptied_wheel !! n = Some 1 ∧
          ∀ j, j < n → items emptied_wheel !! j ≠ Some 1).
Proof.
  split; [unfold owned_by; repeat split; vm_compute; reflexivity |].
  apply (stale_item_not_found (world_of emptied_wheel) 1 sample_item 0 emptied_wheel).
  unfold owned_by; repeat split; vm_compute; reflexivity.
Defined.

(** C8, as the code has it.  On an item that is in the sequence of its
    wheel, for every angle table that has an entry for each position of the
    sequence, [getStartAngle], [getEndAngle] and [getCenterAngle] return, and
    the center is [start + (end - start) / 2] of the two bounds, each
    operation being the one of doubles; for the only item of a wheel, of
    span from 0 to 360, the bounds are 0 and 360 and the center is 180,
    which is [(0 + 360) / 2] as well. *)
Theorem center_of_span σ this it w ws :
  owned_by σ this it w ws → this ∈ items ws →
  (List.length (items ws) ≤ List.length (getItemAngles ws))%nat →
  (∃ s e, getStartAngle this σ = (Ok s, σ) ∧ getEndAngle this σ = (Ok e, σ) ∧
          getCenterAngle this σ = (Ok (s + (e - s) / 2)%float, σ)) ∧
  (items ws = [this] → getItemAngles ws = [ {| start := 0; end_ := 360 |} ] →
   getStartAngle this σ = (Ok 0%float, σ) ∧ getEndAngle this σ = (Ok 360%float, σ) ∧
   getCenterAngle this σ = (Ok 180%float, σ) ∧ ((0 + 360) / 2 = 180)%float).
Proof.
  intros Ho Hin Hlen.
  destruct (angles_present _ _ _ _ _ Ho Hin Hlen) as (n & a & Hn & Ha & Hs & He & Hc).
  split.
  - exists (start a), (end_ a). repeat split; assumption.
  - intros Hitems Hangles.
    rewrite Hitems in Hn. rewrite Hangles in Ha.
    destruct n as [| n]; [| destruct n; discriminate].
    inversion Ha; subst a. cbn [start end_] in *.
    repeat split; assumption.
Qed.

Lemma center_of_span_witness :
  owned_by (world_of single_wheel) 1 sample_item 0 single_wheel ∧
  1 ∈ items single_wheel ∧
  (List.length (items single_wheel) ≤ List.length (getItemAngles single_wheel))%nat ∧
  (∃ s e, getStartAngle 1 (world_of single_wheel) = (Ok s, world_of single_wheel) ∧
          getEndAngle 1 (world_of single_wheel) = (Ok e, world_of single_wheel) ∧
          getCenterAngle 1 (world_of single_wheel)
          = (Ok (s + (e - s) / 2)%float, world_of single_wheel)) ∧
  (items single_wheel = [1] →
   getItemAngles single_wheel = [ {| start := 0; end_ := 360 |} ] →
   getStartAngle 1 (world_of single_wheel) = (Ok 0%float, world_of single_wheel) ∧
   getEndAngle 1 (world_of single_wheel) = (Ok 360%float, world_of single_wheel) ∧
   getCenterAngle 1 (world_of single_wheel) = (Ok 180%float, world_of single_wheel) ∧
   ((0 + 360) / 2 = 180)%float).
Proof.
  split; [unfold owned_by; repeat split; vm_compute; reflexivity |].
  split; [apply list_elem_of_here |].
  split; [simpl; lia |].
  apply (center_of_span (world_of single_wheel) 1 sample_item 0 single_wheel).
  - unfold owned_by; repeat split; vm_compute; reflexivity.
  - apply list_elem_of_here.
  - simpl; lia.
Defined.

(** C8, as the specification has it, fails.  In the wheel of two items of
    weights 2 and 5 the second item is in the sequence and has its entry in
    the table, its bounds are [2 * (360 / 7)], the double
    102.85714285714286, and 360, and its center is not [(start + end) / 2]:
    the formula of the code gives 231.42857142857142, the double just below
    231.42857142857144, which is what [(start + end) / 2] gives. *)
Lemma center_is_not_the_rounded_midpoint :
  let W := world_of sevenths_wheel in
  let s := (2 * (360 / 7))%float in
  let e := 360%float in
  owned_by W 1 sample_item 0 sevenths_wheel ∧ 1 ∈ items sevenths_wheel ∧
  getStartAngle 1 W = (Ok s, W) ∧ getEndAngle 1 W = (Ok e, W) ∧
  getCenterAngle 1 W = (Ok (s + (e - s) / 2)%float, W) ∧
  (s + (e - s) / 2 = 0x1.cedb6db6db6dbp+7)%float ∧
  ((s + e) / 2 = 0x1.cedb6db6db6dcp+7)%float ∧
  (s + (e - s) / 2 <? (s + e) / 2)%float = true ∧
  getCenterAngle 1 W ≠ (Ok ((s + e) / 2)%float, W).
Proof.
  cbv zeta.
  split; [unfold owned_by; repeat split; vm_compute; reflexivity |].
  split; [apply list_elem_of_further, list_elem_of_here |].
  split; [vm_compute; reflexivity |].
  split; [vm_compute; reflexivity |].
  split; [vm_compute; reflexivity |].
  split; [vm_compute; reflexivity |].
  split; [vm_compute; reflexivity |].
  split; [vm_compute; reflexivity |].
  intros H.
  apply (f_equal (fun r : Result float * World =>
                    match r.1 with
                    | Ok c => (c <? (2 * (360 / 7) + 360) / 2)%float
                    | Throw _ => false
                    end)) in H.
  vm_compute in H. discriminate.
Qed.

(** ** Construction *)

Lemma fresh_heap σ : heap σ !! fresh (dom (heap σ)) = None.
Proof. apply not_elem_of_dom, is_fresh. Qed.

Lemma update_kept σ this it w ws upd :
  owned_by σ this it w ws → _wheel (upd it) = _wheel it →
  returns (update this upd) σ (kept_post σ this (upd it) w ws).
Proof.
  intros Ho Hupd. eapply returns_weaken; [apply update_returns; eassumption |].
  intros [] σ' (Ho' & _ & _ & Hr). split; assumption.
Qed.

Lemma alloc_kept σ this it w ws o :
  owned_by σ this it w ws →
  returns (alloc o) σ (fun p σ' => owned_by σ' this it w ws ∧ requests σ' = requests σ).
Proof.
  intros (Hi & Hw & Hws). eexists _, _. split; [reflexivity |].
  pose proof (fresh_heap σ) as Hfresh.
  split; [| reflexivity]. repeat split; simpl.
  - rewrite lookup_insert_ne by congruence. exact Hi.
  - exact Hw.
  - rewrite lookup_insert_ne by congruence. exact Hws.
Qed.

Lemma for_each_update_kept D fs σ this it w ws :
  owned_by σ this it w ws →
  returns (for_each fs (fun i => update this (store i (prop D i)))) σ
          (kept_post σ this (foldl (fun it i => store i (prop D i) it) it fs) w ws).
Proof.
  revert σ it. induction fs as [| f fs IH]; intros σ it Ho.
  - apply returns_ret. split; [exact Ho | reflexivity].
  - simpl. apply returns_bind.
    eapply returns_weaken; [apply update_kept; [exact Ho | reflexivity] |].
    intros [] σ1 (Ho1 & Hr1).
    eapply returns_weaken; [apply IH, Ho1 |].
    intros [] σ2 (Ho2 & Hr2). split; [exact Ho2 | congruence].
Qed.

(** The same steps, the item they leave being left unnamed. *)
Lemma update_some σ this it w ws upd :
  owned_by σ this it w ws → (∀ it0, _wheel (upd it0) = _wheel it0) →
  returns (update this upd) σ (fun _ σ' =>
    (∃ it', owned_by σ' this it' w ws) ∧ requests σ' = requests σ).
Proof.
  intros Ho Hupd. eapply returns_weaken; [apply update_kept; [exact Ho | apply Hupd] |].
  intros [] σ' (Ho' & Hr). split; [eauto | exact Hr].
Qed.

Lemma for_each_update_some D fs σ this it w ws :
  owned_by σ this it w ws →
  returns (for_each fs (fun i => update this (store i (prop D i)))) σ (fun _ σ' =>
    (∃ it', owned_by σ' this it' w ws) ∧ requests σ' = requests σ).
Proof.
  intros Ho. eapply returns_weaken; [apply (for_each_update_kept D), Ho |].
  intros [] σ' (Ho' & Hr). split; [eauto | exact Hr].
Qed.

Lemma new_item_returns σ w ws :
  heap σ !! w = Some (HWheel ws) →
  returns (alloc (HItem blank)) σ (fun this σ' =>
    this = fresh (dom (heap σ)) ∧ heap σ !! this = None ∧
    heap σ' !! this = Some (HItem blank) ∧ heap σ' !! w = Some (HWheel ws) ∧
    requests σ' = requests σ).
Proof.
  intros Hws. eexists _, _. split; [reflexivity |].
  pose proof (fresh_heap σ) as Hfresh.
  split; [reflexivity |]. split; [exact Hfresh |]. cbn [heap set_heap].
  split; [apply lookup_insert_eq |].
  split; [| reflexivity]. rewrite lookup_insert_ne by congruence. exact Hws.
Qed.

Lemma attach_returns σ this it w ws :
  heap σ !! this = Some (HItem it) → heap σ !! w = Some (HWheel ws) →
  returns (update this (store_wheel (VRef w))) σ (fun _ σ' =>
    owned_by σ' this (store_wheel (VRef w) it) w ws ∧ requests σ' = requests σ).
Proof.
  intros Hi Hws. eexists _, _. split; [apply update_run, Hi |].
  split; [| reflexivity]. repeat split; cbn [heap set_heap].
  - apply lookup_insert_eq.
  - rewrite lookup_insert_ne by congruence. exact Hws.
Qed.

Lemma readProp_bag bag f σ :
  readProp (VObject bag) f σ = (Ok (getProp bag (key f)), σ).
Proof. reflexivity. Qed.

Lemma readProp_item l other f σ :
  heap σ !! l = Some (HItem other) →
  readProp (VRef l) f σ = (Ok (private other f), σ).
Proof. intros H. unfold readProp. rewrite H. reflexivity. Qed.

(** Reading a key of anything but [undefined] and [null] returns, and
    changes nothing. *)
Lemma readProp_returns o f σ :
  o ≠ VUndefined → o ≠ VNull → ∃ v, readProp o f σ = (Ok v, σ).
Proof.
  intros H1 H2. destruct o; try congruence; try (eexists; reflexivity).
  unfold readProp. destruct (heap σ !! l) as [[| |] |]; eexists; reflexivity.
Qed.

Lemma returns_keeps {A} (m : M A) σ (Q : A → World → Prop) (inv : World → Prop) :
  returns m σ Q → inv (m σ).2 → returns m σ (fun a σ' => Q a σ' ∧ inv σ').
Proof.
  intros (a & σ' & Hm & HQ) Hinv. rewrite Hm in Hinv. exists a, σ'. auto.
Qed.

Lemma for_each_keeps {A} (xs : list A) (body : A → M ()) (inv : World → Prop) σ :
  (∀ x σ', inv σ' → inv (body x σ').2) → inv σ → inv (for_each xs body σ).2.
Proof.
  intros Hbody. revert σ. induction xs as [| x xs IH]; intros σ Hinv.
  - exact Hinv.
  - cbn [for_each]. unfold mbind, M_bind.
    pose proof (Hbody x σ Hinv) as H1.
    destruct (body x σ) as [[[] | e] σ1]; cbn [snd] in *.
    + now apply IH.
    + exact H1.
Qed.

Section Construction.

Variable D : ItemProps.
Variable L : nat → JSValue → JSValue.

Section Reading.

(** [init] on an object [props] whose key [f] reads as [c f] in every world
    that satisfies [inv], a property of worlds that the setters of the item
    keep. *)
Variable props : JSValue.
Variable c : Field → JSValue.
Variable inv : World → Prop.
Variable this : loc.

Hypothesis reads : ∀ f σ, inv σ → readProp props f σ = (Ok (c f), σ).
Hypothesis kept : ∀ f v σ, inv σ → inv (setter D L f this v σ).2.

(** One line of [init]: [this[f] = props[f]]. *)
Lemma init_line f σ it w ws :
  inv σ → owned_by σ this it w ws →
  returns (v ← readProp props f; setter D L f this v) σ
          (fun u σ' => setter_post D L f (c f) σ this it w ws u σ' ∧ inv σ').
Proof.
  intros Hinv Ho. apply returns_bind.
  exists (c f), σ. split; [now apply reads |].
  apply returns_keeps; [now apply setter_returns | now apply kept].
Qed.

Lemma init_returns σ it w ws :
  inv σ → owned_by σ this it w ws →
  returns (init D L this props) σ (fun _ σ' =>
    owned_by σ' this (initialised D L c (requests σ) it) w
             (Nat.iter 8 refreshed ws) ∧ inv σ').
Proof.
  intros Hinv Ho. unfold init.
  assert (Hdef : props ≠ VUndefined).
  { intros ->. specialize (reads Value σ Hinv). discriminate. }
  replace (if is_undefined props then VObject ∅ else props) with props
    by (destruct props; try reflexivity; congruence).
  apply returns_bind.
  eapply returns_weaken; [apply (init_line BackgroundColor); eassumption |].
  intros [] σ1 ((Ho1 & _ & _ & Hr1) & Hinv1).
  cbn [notifies loads assigned] in Ho1, Hr1.
  apply returns_bind.
  eapply returns_weaken; [apply (init_line Image); eassumption |].
  intros [] σ2 ((Ho2 & _ & _ & _) & Hinv2).
  rewrite Hr1 in Ho2. cbn [notifies assigned] in Ho2.
  apply returns_bind.
  eapply returns_weaken; [apply (init_line ImageOpacity); eassumption |].
  intros [] σ3 ((Ho3 & _) & Hinv3). cbn [notifies assigned] in Ho3.
  apply returns_bind.
  eapply returns_weaken; [apply (init_line ImageRadius); eassumption |].
  intros [] σ4 ((Ho4 & _) & Hinv4). cbn [notifies assigned] in Ho4.
  apply returns_bind.
  eapply returns_weaken; [apply (init_line ImageRotation); eassumption |].
  intros [] σ5 ((Ho5 & _) & Hinv5). cbn [notifies assigned] in Ho5.
  apply returns_bind.
  eapply returns_weaken; [apply (init_line ImageScale); eassumption |].
  intros [] σ6 ((Ho6 & _) & Hinv6). cbn [notifies assigned] in Ho6.
  apply returns_bind.
  eapply returns_weaken; [apply (init_line Label); eassumption |].
  intros [] σ7 ((Ho7 & _) & Hinv7). cbn [notifies assigned] in Ho7.
  apply returns_bind.
  eapply returns_weaken; [apply (init_line LabelColor); eassumption |].
  intros [] σ8 ((Ho8 & _) & Hinv8). cbn [notifies assigned] in Ho8.
  apply returns_bind.
  eapply returns_weaken; [apply (init_line Value); eassumption |].
  intros [] σ9 ((Ho9 & _) & Hinv9). cbn [notifies assigned] in Ho9.
  eapply returns_weaken; [apply (init_line Weight); eassumption |].
  intros [] σ10 ((Ho10 & _) & Hinv10). cbn [notifies assigned] in Ho10.
  split; [| exact Hinv10].
  unfold initialised. cbn [foldl all_fields assigned Nat.iter]. exact Ho10.
Qed.

End Reading.

(** [init] on a data object. *)
Lemma init_of_bag bag σ this it w ws :
  owned_by σ this it w ws →
  returns (init D L this (VObject bag)) σ (fun _ σ' =>
    owned_by σ' this (initialised D L (bag_values bag) (requests σ) it) w
             (Nat.iter 8 refreshed ws)).
Proof.
  intros Ho.
  eapply returns_weaken;
    [apply (init_returns (VObject bag) (bag_values bag) (fun _ => True) this);
     [intros; apply readProp_bag | trivial | trivial | exact Ho] |].
  intros [] σ' (Ho' & _). exact Ho'.
Qed.

(** One line of [init] on any object: the value read is left unnamed. *)
Lemma init_line_some f props σ this it w ws :
  props ≠ VUndefined → props ≠ VNull → owned_by σ this it w ws →
  returns (v ← readProp props f; setter D L f this v) σ (fun _ σ' =>
    ∃ it', owned_by σ' this it' w (if notifies f then refreshed ws else ws)).
Proof.
  intros H1 H2 Ho. apply returns_bind.
  destruct (readProp_returns props f σ H1 H2) as (v & Hv).
  exists v, σ. split; [exact Hv |].
  eapply returns_weaken; [apply setter_returns, Ho |].
  intros [] σ' (Ho' & _). eauto.
Qed.

(** [init] returns on every argument but [null]. *)
Lemma init_succeeds props σ this it w ws :
  props ≠ VNull → owned_by σ this it w ws →
  returns (init D L this props) σ (fun _ σ' =>
    ∃ it', owned_by σ' this it' w (Nat.iter 8 refreshed ws)).
Proof.
  intros Hnull Ho. unfold init.
  set (o := if is_undefined props then VObject ∅ else props).
  assert (H1 : o ≠ VUndefined) by (subst o; destruct props; discriminate).
  assert (H2 : o ≠ VNull) by (subst o; destruct props; try discriminate; congruence).
  clearbody o. clear Hnull. revert σ it Ho.
  assert (Hline := fun f σ it ws => init_line_some f o σ this it w ws H1 H2).
  intros σ it Ho.
  apply returns_bind.
  eapply returns_weaken; [eapply (Hline BackgroundColor), Ho |].
  clear Ho it. intros [] σ1 (it & Ho). cbn [notifies] in Ho.
  apply returns_bind.
  eapply returns_weaken; [eapply (Hline Image), Ho |].
  clear Ho it. intros [] σ2 (it & Ho). cbn [notifies] in Ho.
  apply returns_bind.
  eapply returns_weaken; [eapply (Hline ImageOpacity), Ho |].
  clear Ho it. intros [] σ3 (it & Ho). cbn [notifies] in Ho.
  apply returns_bind.
  eapply returns_weaken; [eapply (Hline ImageRadius), Ho |].
  clear Ho it. intros [] σ4 (it & Ho). cbn [notifies] in Ho.
  apply returns_bind.
  eapply returns_weaken; [eapply (Hline ImageRotation), Ho |].
  clear Ho it. intros [] σ5 (it & Ho). cbn [notifies] in Ho.
  apply returns_bind.
  eapply returns_weaken; [eapply (Hline ImageScale), Ho |].
  clear Ho it. intros [] σ6 (it & Ho). cbn [notifies] in Ho.
  apply returns_bind.
  eapply returns_weaken; [eapply (Hline Label), Ho |].
  clear Ho it. intros [] σ7 (it & Ho). cbn [notifies] in Ho.
  apply returns_bind.
  eapply returns_weaken; [eapply (Hline LabelColor), Ho |].
  clear Ho it. intros [] σ8 (it & Ho). cbn [notifies] in Ho.
  apply returns_bind.
  eapply returns_weaken; [eapply (Hline Value), Ho |].
  clear Ho it. intros [] σ9 (it & Ho). cbn [notifies] in Ho.
  eapply returns_weaken; [eapply (Hline Weight), Ho |].
  clear Ho it. intros [] σ10 (it & Ho). cbn [notifies] in Ho.
  exists it. exact Ho.
Qed.

Lemma private_initialised c n it f :
  private (initialised D L c n it) f = validated D f (c f).
Proof.
  unfold initialised, assigned, validated. cbn [foldl all_fields].
  destruct (JSType_eqb (typeof (c Image)) TString) eqn:E;
    destruct f;
    cbn [private store store_imageObj _backgroundColor _image _imageOpacity
         _imageRadius _imageRotation _imageScale _label _labelColor _value
         _weight expected] in *;
    rewrite ?E; reflexivity.
Qed.

Lemma imageObj_initialised c n it :
  _imageObj (initialised D L c n it)
  = if JSType_eqb (typeof (c Image)) TString then L n (c Image) else VNull.
Proof.
  unfold initialised, assigned. cbn [foldl all_fields].
  destruct (JSType_eqb (typeof (c Image)) TString); reflexivity.
Qed.

Lemma wheel_initialised c n it :
  _wheel (initialised D L c n it) = _wheel it.
Proof.
  unfold initialised, assigned. cbn [foldl all_fields].
  destruct (JSType_eqb (typeof (c Image)) TString); reflexivity.
Qed.

End Construction.

(** *** What can be thrown after the validation of the arguments *)

Create HintDb type_errors.

Lemma tot_ret {A} (a : A) : throws_only_TypeError (mret a).
Proof. intros σ e σ' H. discriminate. Qed.

Lemma tot_throw {A} msg : throws_only_TypeError (@throw A (TypeError msg)).
Proof. intros σ e σ' H. inversion H. eauto. Qed.

Lemma tot_bind {A B} (m : M A) (k : A → M B) :
  throws_only_TypeError m → (∀ a, throws_only_TypeError (k a)) →
  throws_only_TypeError (m ≫= k).
Proof.
  intros Hm Hk σ e σ' H. unfold mbind, M_bind in H.
  destruct (m σ) as [[a | e0] σ1] eqn:E.
  - eapply Hk, H.
  - inversion H; subst. eapply Hm, E.
Qed.

Lemma tot_this_item this : throws_only_TypeError (this_item this).
Proof.
  intros σ e σ' H. unfold this_item in H.
  destruct (heap σ !! this) as [[| |] |]; inversion H; eauto.
Qed.

Lemma tot_put l o : throws_only_TypeError (put l o).
Proof. intros σ e σ' H. discriminate. Qed.

Lemma tot_alloc o : throws_only_TypeError (alloc o).
Proof. intros σ e σ' H. discriminate. Qed.

Lemma tot_refresh wheel : throws_only_TypeError (refresh wheel).
Proof.
  intros σ e σ' H. unfold refresh in H.
  destruct wheel; try (inversion H; eauto; fail).
  destruct (heap σ !! l) as [[| |] |]; inversion H; eauto.
Qed.

Lemma tot_loadImage L url cb : throws_only_TypeError (loadImage L url cb).
Proof. intros σ e σ' H. discriminate. Qed.

Lemma tot_readProp o f : throws_only_TypeError (readProp o f).
Proof.
  intros σ e σ' H. unfold readProp in H.
  destruct o; try (inversion H; eauto; fail).
  destruct (heap σ !! l) as [[| |] |]; discriminate.
Qed.

#[local] Hint Resolve tot_ret tot_throw tot_this_item tot_put tot_alloc tot_refresh
  tot_loadImage tot_readProp : type_errors.

Lemma tot_update this upd : throws_only_TypeError (update this upd).
Proof. unfold update. apply tot_bind; auto with type_errors. Qed.

Lemma tot_wheel_refresh this : throws_only_TypeError (wheel_refresh this).
Proof. unfold wheel_refresh. apply tot_bind; auto with type_errors. Qed.

#[local] Hint Resolve tot_update tot_wheel_refresh : type_errors.

Lemma tot_for_each {A} (l : list A) (body : A → M ()) :
  (∀ x, throws_only_TypeError (body x)) → throws_only_TypeError (for_each l body).
Proof.
  intros Hbody. induction l as [| x l IH]; simpl.
  - apply tot_ret.
  - apply tot_bind; auto.
Qed.

Lemma tot_setter D L f this val : throws_only_TypeError (setter D L f this val).
Proof.
  destruct f; simpl;
    unfold set_backgroundColor, set_image, set_imageOpacity, set_imageRadius,
      set_imageRotation, set_imageScale, set_label, set_labelColor, set_value,
      set_weight;
    repeat first
      [ apply tot_bind; [| intros ?]
      | match goal with |- throws_only_TypeError (if ?b then _ else _) => destruct b end
      | solve [auto with type_errors] ].
Qed.

Lemma tot_init D L this props : throws_only_TypeError (init D L this props).
Proof.
  unfold init.
  repeat first
    [ apply (tot_setter D L BackgroundColor) | apply (tot_setter D L Image)
    | apply (tot_setter D L ImageOpacity) | apply (tot_setter D L ImageRadius)
    | apply (tot_setter D L ImageRotation) | apply (tot_setter D L ImageScale)
    | apply (tot_setter D L Label) | apply (tot_setter D L LabelColor)
    | apply (tot_setter D L Value) | apply (tot_setter D L Weight)
    | apply tot_readProp
    | apply tot_bind; [| intros ?] ].
Qed.

(** *** The constructor *)

Ltac only_type_errors :=
  lazymatch goal with
  | |- throws_only_TypeError (_ ≫= _) =>
      apply tot_bind; [only_type_errors | intros ?; only_type_errors]
  | |- throws_only_TypeError (if ?b then _ else _) => destruct b; only_type_errors
  | |- throws_only_TypeError (mret _) => apply tot_ret
  | |- throws_only_TypeError (update _ _) => apply tot_update
  | |- throws_only_TypeError (alloc _) => apply tot_alloc
  | |- throws_only_TypeError (init _ _ _ _) => apply tot_init
  | |- throws_only_TypeError (for_each _ _) =>
      apply tot_for_each; intros ?; only_type_errors
  end.

Section New.

Variable D : ItemProps.
Variable L : nat → JSValue → JSValue.

Lemma alloc_run o σ :
  alloc o σ = (Ok (fresh (dom (heap σ))),
               set_heap (<[fresh (dom (heap σ)) := o]> (heap σ)) σ).
Proof. reflexivity. Qed.

(** A wheel that is not an object is refused. *)
Lemma constructor_refuses_wheel wheel props σ :
  isObject wheel = false →
  ∃ σ', constructor D L wheel props σ
        = (Throw (Error "wheel must be an instance of Wheel"), σ').
Proof.
  intros Hw. unfold constructor.
  rewrite (bind_run _ _ _ _ _ (alloc_run _ _)), Hw. cbn [negb].
  eexists. reflexivity.
Qed.

(** A bag that is given, and is neither an object nor [null], is refused. *)
Lemma constructor_refuses_props wheel props σ :
  isObject wheel = true →
  props ≠ VUndefined → isObject props = false → props ≠ VNull →
  ∃ σ', constructor D L wheel props σ
        = (Throw (Error "props must be an Object or null"), σ').
Proof.
  intros Hw Hu Ho Hn. unfold constructor.
  rewrite (bind_run _ _ _ _ _ (alloc_run _ _)), Hw. cbn [negb].
  replace (if is_undefined props then VObject ∅ else props) with props
    by (destruct props; try reflexivity; congruence).
  rewrite Ho. replace (is_null props) with false
    by (destruct props; try reflexivity; congruence).
  eexists. reflexivity.
Qed.

(** Once the arguments are accepted, nothing but a [TypeError] is thrown. *)
Lemma constructor_accepted wheel props σ e σ' :
  isObject wheel = true →
  (props = VUndefined ∨ isObject props = true ∨ props = VNull) →
  constructor D L wheel props σ = (Throw e, σ') →
  ∃ msg, e = TypeError msg.
Proof.
  intros Hw Hp Hrun. unfold constructor in Hrun.
  rewrite (bind_run _ _ _ _ _ (alloc_run _ _)), Hw in Hrun. cbn [negb] in Hrun.
  assert (Hvalid :
    negb (isObject (if is_undefined props then VObject ∅ else props)) &&
    negb (is_null (if is_undefined props then VObject ∅ else props)) = false).
  { destruct Hp as [-> | [Hp | ->]]; [reflexivity | | reflexivity].
    destruct props; try discriminate; reflexivity. }
  rewrite Hvalid in Hrun.
  revert Hrun. generalize (set_heap (<[fresh (dom (heap σ)) := HItem blank]> (heap σ)) σ).
  intros σ1 Hrun.
  match type of Hrun with
  | ?m _ = _ =>
      assert (Htot : throws_only_TypeError m) by only_type_errors;
      exact (Htot _ _ _ Hrun)
  end.
Qed.

(** With a wheel and an acceptable bag, the constructor reaches [init] on a
    new item that has the wheel, no load having been requested, and returns
    the item when [init] returns.  [inv] is a property of worlds that the
    steps of the constructor keep. *)
Lemma constructor_runs w ws props σ (inv : World → Prop) (Q : loc → World → Prop) :
  heap σ !! w = Some (HWheel ws) →
  (props = VUndefined ∨ isObject props = true ∨ props = VNull) →
  inv σ →
  (∀ o σ1, inv σ1 → inv (alloc o σ1).2) →
  (∀ this upd σ1, heap σ !! this = None → inv σ1 → inv (update this upd σ1).2) →
  (∀ this σ1 it1, heap σ !! this = None → inv σ1 →
     owned_by σ1 this it1 w ws → requests σ1 = requests σ →
     returns (init D L this (init_source D props)) σ1 (fun _ σ' => Q this σ')) →
  returns (constructor D L (VRef w) props) σ (fun this σ' =>
    heap σ !! this = None ∧ Q this σ').
Proof.
  intros Hws Hp Hinv Halloc Hupdate Hinit.
  assert (Hvalid :
    negb (isObject (if is_undefined props then VObject ∅ else props)) &&
    negb (is_null (if is_undefined props then VObject ∅ else props)) = false).
  { destruct Hp as [-> | [Hp | ->]]; [reflexivity | | reflexivity].
    destruct props; try discriminate; reflexivity. }
  assert (Hsource :
    (if toBoolean (if is_undefined props then VObject ∅ else props)
     then init D L (fresh (dom (heap σ))) (if is_undefined props then VObject ∅ else props)
     else init D L (fresh (dom (heap σ))) (ItemProps_object D))
    = init D L (fresh (dom (heap σ))) (init_source D props)).
  { unfold init_source.
    destruct Hp as [-> | [Hp | ->]]; [reflexivity | | reflexivity].
    destruct props; try discriminate; reflexivity. }
  unfold constructor.
  apply returns_bind.
  eapply returns_weaken;
    [apply returns_keeps; [apply new_item_returns, Hws | apply Halloc, Hinv] |].
  clear Hinv. intros this σ1 ((-> & Hfresh & Hi1 & Hws1 & Hr1) & Hinv).
  cbn [isObject negb]. rewrite Hvalid, Hsource. clear Hvalid Hsource.
  set (this := fresh (dom (heap σ))) in *.
  specialize (Hupdate this). specialize (Hinit this).
  apply returns_bind, returns_ret. apply returns_bind, returns_ret.
  apply returns_bind.
  eapply returns_weaken;
    [apply returns_keeps; [apply attach_returns; eassumption | now apply Hupdate] |].
  clear Hinv. intros [] σ2 ((Ho & Hr) & Hinv).
  rewrite Hr1 in Hr. clear Hi1 Hws1 Hr1 σ1.
  (* the defaults, the path, then the typed initial values *)
  apply returns_bind.
  eapply returns_weaken;
    [apply returns_keeps;
     [eapply (for_each_update_some D), Ho
     | apply for_each_keeps; [intros; now apply Hupdate | exact Hinv]] |].
  clear Ho Hinv. intros [] σ3 (((it3 & Ho) & Hr3) & Hinv).
  rewrite Hr in Hr3. clear Hr σ2.
  apply returns_bind. apply returns_bind.
  eapply returns_weaken;
    [apply returns_keeps; [eapply alloc_kept, Ho | apply Halloc, Hinv] |].
  clear Ho Hinv. intros p σ4 ((Ho & Hr4) & Hinv). rewrite Hr3 in Hr4. clear Hr3 σ3.
  eapply returns_weaken;
    [apply returns_keeps;
     [eapply update_some; [exact Ho | reflexivity] | now apply Hupdate] |].
  clear Ho Hinv it3. intros [] σ5 (((it5 & Ho) & Hr) & Hinv).
  rewrite Hr4 in Hr. clear Hr4 σ4.
  do 11 (apply returns_bind;
         eapply returns_weaken;
           [apply returns_keeps;
            [eapply update_some; [exact Ho | reflexivity] | now apply Hupdate] |];
         clear Ho Hinv;
         let σ' := fresh "σ" in let it' := fresh "it" in let Hr' := fresh "Hr" in
         intros [] σ' (((it' & Ho) & Hr') & Hinv); rewrite Hr in Hr'; clear Hr;
         rename Hr' into Hr).
  apply returns_bind.
  eapply returns_weaken; [eapply Hinit; eassumption |].
  intros [] σ' HQ.
  apply returns_ret. split; [exact Hfresh | exact HQ].
Qed.

(** With a wheel and a bag that is absent, [null] or a data object, the
    constructor returns a new item, initialised from the bag [init_bag]
    names. *)
Lemma constructor_returns w ws props σ :
  heap σ !! w = Some (HWheel ws) →
  (props = VUndefined ∨ props = VNull ∨ ∃ bag, props = VObject bag) →
  ∃ this σ' base,
    constructor D L (VRef w) props σ = (Ok this, σ') ∧
    heap σ !! this = None ∧
    owned_by σ' this
             (initialised D L (bag_values (init_bag D props)) (requests σ) base) w
             (Nat.iter 8 refreshed ws).
Proof.
  intros Hws Hp.
  assert (Hsrc : init_source D props = VObject (init_bag D props))
    by (destruct Hp as [-> | [-> | (bag & ->)]]; reflexivity).
  assert (Hacc : props = VUndefined ∨ isObject props = true ∨ props = VNull)
    by (destruct Hp as [-> | [-> | (bag & ->)]]; auto).
  destruct (constructor_runs w ws props σ (fun _ => True)
              (fun this σ' => ∃ base,
                 owned_by σ' this
                   (initialised D L (bag_values (init_bag D props)) (requests σ) base)
                   w (Nat.iter 8 refreshed ws)) Hws Hacc)
    as (this & σ' & Hrun & Hfresh & base & Ho); try (intros; exact I).
  - intros this σ1 it1 _ _ Ho1 Hr1. rewrite Hsrc, <- Hr1.
    eapply returns_weaken; [apply init_of_bag, Ho1 |].
    intros [] σ' Ho'. eauto.
  - eauto 10.
Qed.

(** With a wheel and any acceptable bag, the constructor returns a new item. *)
Lemma constructor_succeeds w ws props σ :
  heap σ !! w = Some (HWheel ws) →
  (props = VUndefined ∨ isObject props = true ∨ props = VNull) →
  ∃ this σ' it',
    constructor D L (VRef w) props σ = (Ok this, σ') ∧
    heap σ !! this = None ∧
    owned_by σ' this it' w (Nat.iter 8 refreshed ws).
Proof.
  intros Hws Hp.
  assert (Hsrc : init_source D props ≠ VNull).
  { unfold init_source, ItemProps_object.
    destruct Hp as [-> | [Hp | ->]]; [discriminate | | discriminate].
    destruct props; discriminate. }
  destruct (constructor_runs w ws props σ (fun _ => True)
              (fun this σ' => ∃ it', owned_by σ' this it' w (Nat.iter 8 refreshed ws))
              Hws Hp)
    as (this & σ' & Hrun & Hfresh & it' & Ho); try (intros; exact I).
  - intros this σ1 it1 _ _ Ho1 _. now apply init_succeeds with it1.
  - eauto 10.
Qed.

End New.

Lemma bag_values_ItemProps D f : bag_values (ItemProps_bag D) f = prop D f.
Proof. destruct f; reflexivity. Qed.

Lemma validated_default D f : validated D f (prop D f) = prop D f.
Proof.
  unfold validated. destruct (expected f) as [ty |].
  - destruct (JSType_eqb (typeof (prop D f)) ty); reflexivity.
  - destruct (prop D f); reflexivity.
Qed.

Lemma validated_undefined D f : validated D f VUndefined = prop D f.
Proof. destruct f; reflexivity. Qed.

Lemma validated_init_bag D props f :
  props = VUndefined ∨ props = VNull →
  validated D f (bag_values (init_bag D props) f) = prop D f.
Proof.
  intros [-> | ->]; cbn [init_bag].
  - replace (bag_values ∅ f) with VUndefined by (destruct f; reflexivity).
    apply validated_undefined.
  - rewrite bag_values_ItemProps. apply validated_default.
Qed.

(** C2.  [new Item(wheel, props)] throws one of the two errors of the
    validation of its arguments exactly when [wheel] is not an object, or
    [props] is given and is neither an object nor [null].  With a wheel and
    an acceptable bag it returns a new item, the eight signalling setters
    having each called [refresh()]; when the bag is absent or [null] every
    property reads as its default in [Defaults.item]; when the bag is a data
    object every property reads as the rule of the setters gives for the
    value the bag has at its key, [undefined] for a key it lacks, which is
    also how the property reads after the public setter is called later
    with that value. *)
Theorem constructor_contract D L wheel props σ :
  ((∃ e σ', constructor D L wheel props σ = (Throw e, σ') ∧ InvalidArgument e) ↔
   (isObject wheel = false ∨
    (props ≠ VUndefined ∧ isObject props = false ∧ props ≠ VNull))) ∧
  (∀ w ws, wheel = VRef w → heap σ !! w = Some (HWheel ws) →
     (props = VUndefined ∨ isObject props = true ∨ props = VNull) →
     ∃ this σ',
       constructor D L wheel props σ = (Ok this, σ') ∧
       heap σ !! this = None ∧
       heap σ' !! w = Some (HWheel (Nat.iter 8 refreshed ws)) ∧
       (props = VUndefined ∨ props = VNull →
        ∀ f, getter f this σ' = (Ok (prop D f), σ')) ∧
       (∀ bag, props = VObject bag →
        ∀ f, getter f this σ' = (Ok (validated D f (getProp bag (key f))), σ') ∧
             ∃ σ'', setter D L f this (getProp bag (key f)) σ' = (Ok (), σ'') ∧
                    getter f this σ''
                    = (Ok (validated D f (getProp bag (key f))), σ''))).
Proof.
  split.
  - split.
    + intros (e & σ' & Hrun & Hinv).
      destruct (isObject wheel) eqn:Hw; [right | left; reflexivity].
      assert (Hp : (props = VUndefined ∨ isObject props = true ∨ props = VNull) ∨
                   (props ≠ VUndefined ∧ isObject props = false ∧ props ≠ VNull)).
      { destruct props; cbn [isObject]; auto; right; repeat split; discriminate. }
      destruct Hp as [Hp | Hp]; [exfalso | exact Hp].
      destruct (constructor_accepted D L _ _ _ _ _ Hw Hp Hrun) as (msg & ->).
      destruct Hinv; discriminate.
    + intros [Hw | (Hu & Ho & Hn)].
      * destruct (constructor_refuses_wheel D L wheel props σ Hw) as (σ' & Hrun).
        eexists _, σ'. split; [exact Hrun | left; reflexivity].
      * destruct (isObject wheel) eqn:Hw.
        -- destruct (constructor_refuses_props D L wheel props σ Hw Hu Ho Hn)
             as (σ' & Hrun).
           eexists _, σ'. split; [exact Hrun | right; reflexivity].
        -- destruct (constructor_refuses_wheel D L wheel props σ Hw) as (σ' & Hrun).
           eexists _, σ'. split; [exact Hrun | left; reflexivity].
  - intros w ws -> Hws Hp.
    assert (Hcases : (props = VUndefined ∨ props = VNull ∨ ∃ bag, props = VObject bag)
                     ∨ ∃ l, props = VRef l).
    { destruct Hp as [-> | [Hp | ->]]; auto.
      destruct props; try discriminate; eauto 6. }
    destruct Hcases as [Hbag | (l & ->)].
    + destruct (constructor_returns D L w ws props σ Hws Hbag)
        as (this & σ' & base & Hrun & Hfresh & Ho).
      exists this, σ'. split; [exact Hrun |]. split; [exact Hfresh |].
      split; [apply Ho |].
      pose proof (proj1 Ho) as Hi. split.
      * intros Habsent f. rewrite (getter_run f _ _ _ Hi), private_initialised.
        now rewrite validated_init_bag.
      * intros bag -> f. cbn [init_bag] in *. split.
        -- rewrite (getter_run f _ _ _ Hi), private_initialised. reflexivity.
        -- destruct (setter_returns D L f (getProp bag (key f)) _ _ _ _ _ Ho)
             as ([] & σ'' & Hset & (Hi' & _) & _).
           exists σ''. split; [exact Hset |].
           rewrite (getter_run f _ _ _ Hi'). f_equal. f_equal.
           destruct f; try reflexivity. apply private_assigned_image.
    + destruct (constructor_succeeds D L w ws (VRef l) σ Hws Hp)
        as (this & σ' & it' & Hrun & Hfresh & Ho).
      exists this, σ'. split; [exact Hrun |]. split; [exact Hfresh |].
      split; [apply Ho |].
      split; [intros [? | ?]; discriminate | intros bag ?; discriminate].
Qed.

Lemma constructor_contract_witness :
  VRef 0 = VRef 0 ∧ heap sample_world !! 0 = Some (HWheel sample_wheel) ∧
  (VObject sample_bag = VUndefined ∨ isObject (VObject sample_bag) = true ∨
   VObject sample_bag = VNull) ∧
  ∃ this σ',
    constructor sample_defaults image_element (VRef 0) (VObject sample_bag) sample_world
    = (Ok this, σ') ∧
    heap sample_world !! this = None ∧
    heap σ' !! 0 = Some (HWheel (Nat.iter 8 refreshed sample_wheel)) ∧
    (VObject sample_bag = VUndefined ∨ VObject sample_bag = VNull →
     ∀ f, getter f this σ' = (Ok (prop sample_defaults f), σ')) ∧
    (∀ bag, VObject sample_bag = VObject bag →
     ∀ f, getter f this σ'
          = (Ok (validated sample_defaults f (getProp bag (key f))), σ') ∧
          ∃ σ'', setter sample_defaults image_element f this
                   (getProp bag (key f)) σ' = (Ok (), σ'') ∧
                 getter f this σ''
                 = (Ok (validated sample_defaults f (getProp bag (key f))), σ'')).
Proof.
  split; [reflexivity |].
  split; [vm_compute; reflexivity |].
  split; [right; left; reflexivity |].
  apply (proj2 (constructor_contract sample_defaults image_element
                  (VRef 0) (VObject sample_bag) sample_world) 0 sample_wheel).
  - reflexivity.
  - vm_compute; reflexivity.
  - right; left; reflexivity.
Defined.

(** The bag of the sample: the label is kept, the weight, a string, gives
    way to the default, and a key the bag lacks reads as its default. *)
Example constructor_of_sample_bag :
  let new_item :=
    constructor sample_defaults image_element (VRef 0) (VObject sample_bag) in
  ((this ← new_item; get_label this) sample_world).1 = Ok (VString "two") ∧
  ((this ← new_item; get_weight this) sample_world).1 = Ok (VNumber 1) ∧
  ((this ← new_item; get_imageOpacity this) sample_world).1 = Ok (VNumber 1) ∧
  ((this ← new_item; get_imageObj this) sample_world).1 = Ok VNull.
Proof. vm_compute. repeat split. Qed.

(** An item given as the bag is read through its accessors: the new item
    takes the label and the weight of the item at [1]. *)
Example constructor_of_an_item :
  let new_item := constructor sample_defaults image_element (VRef 0) (VRef 1) in
  ((this ← new_item; get_label this) sample_world).1 = Ok (VString "one") ∧
  ((this ← new_item; get_value this) sample_world).1 = Ok (VNumber 7) ∧
  ((this ← new_item; get_image this) sample_world).1 = Ok VNull.
Proof. vm_compute. repeat split. Qed.

(** Two refusals, and an object that is not a wheel: it passes the
    validation, and the first [refresh()] is a [TypeError]. *)
Example constructor_refusals :
  (constructor sample_defaults image_element (VNumber 1) VUndefined sample_world).1
  = Throw (Error "wheel must be an instance of Wheel") ∧
  (constructor sample_defaults image_element (VRef 0) (VString "bag") sample_world).1
  = Throw (Error "props must be an Object or null") ∧
  (constructor sample_defaults image_element (VObject ∅) VNull sample_world).1
  = Throw (TypeError "this._wheel.refresh is not a function").
Proof. vm_compute. repeat split. Qed.

(** With a loader that returns nothing, [imageObj] is [null] after the
    assignment and is still [null] once the load has completed. *)
Example imageObj_with_silent_loader :
  let assign := set_image sample_defaults no_element 1 (VString "a.png") in
  ((assign;; get_imageObj 1) sample_world).1 = Ok VNull ∧
  ((assign;; complete 0;; get_imageObj 1) sample_world).1 = Ok VNull.
Proof. vm_compute. repeat split. Qed.

(** * Further properties of the class *)

(** ** Assignments, one and two at a time *)

Lemma world_eq σ1 σ2 :
  heap σ1 = heap σ2 → loading σ1 = loading σ2 → requests σ1 = requests σ2 →
  σ1 = σ2.
Proof. destruct σ1, σ2. simpl. intros -> -> ->. reflexivity. Qed.

(** Two assignments in a row, on an item that has its wheel. *)
Lemma two_setters D L f u g v σ this it w ws :
  owned_by σ this it w ws →
  returns (setter D L f this u;; setter D L g this v) σ (fun _ σ' =>
    let n := requests σ in
    let n' := if loads f u then S n else n in
    owned_by σ' this (assigned D L g v n' (assigned D L f u n it)) w
      (if notifies g then refreshed (if notifies f then refreshed ws else ws)
       else (if notifies f then refreshed ws else ws)) ∧
    frame σ σ' this w ∧
    loading σ' = (if loads g v
                  then <[n' := RefreshOnLoad this]>
                         (if loads f u then <[n := RefreshOnLoad this]> (loading σ)
                          else loading σ)
                  else (if loads f u then <[n := RefreshOnLoad this]> (loading σ)
                        else loading σ)) ∧
    requests σ' = (if loads g v then S n' else n')).
Proof.
  intros Ho. apply returns_bind.
  eapply returns_weaken; [apply setter_returns, Ho |].
  intros [] σ1 (Ho1 & Hf1 & Hl1 & Hr1).
  eapply returns_weaken; [apply setter_returns, Ho1 |].
  intros [] σ2 (Ho2 & Hf2 & Hl2 & Hr2). cbv zeta.
  rewrite Hr1 in Ho2, Hl2, Hr2. rewrite Hl1 in Hl2.
  split; [exact Ho2 |]. split; [eauto using frame_trans |].
  split; assumption.
Qed.

(** X1.  The setters of [value] and [weight] do not use the wheel: on any item,
    whatever its [_wheel] is, they return, write the one field, and leave
    every other object of the heap, the wheels among them, and the loads as
    they were. *)
Theorem value_and_weight_need_no_wheel D L f val σ this it :
  f = Value ∨ f = Weight →
  heap σ !! this = Some (HItem it) →
  ∃ σ', setter D L f this val σ = (Ok (), σ') ∧
        heap σ' !! this = Some (HItem (store f (validated D f val) it)) ∧
        (∀ l, l ≠ this → heap σ' !! l = heap σ !! l) ∧
        loading σ' = loading σ ∧ requests σ' = requests σ.
Proof.
  intros Hf Hi.
  assert (Hrun : ∀ v, update this (store f v) σ
                      = (Ok (), set_heap (<[this := HItem (store f v it)]> (heap σ)) σ))
    by (intros v; apply update_run, Hi).
  destruct Hf as [-> | ->]; cbn [setter]; unfold set_value, set_weight, validated;
    cbn [expected prop].
  - destruct (is_undefined val); cbn [negb]; rewrite Hrun;
      (eexists; split; [reflexivity |]); cbn [heap set_heap loading requests];
      (split; [apply lookup_insert_eq |]);
      (split; [intros l Hl; apply lookup_insert_ne; congruence | split; reflexivity]).
  - destruct (JSType_eqb (typeof val) TNumber); rewrite Hrun;
      (eexists; split; [reflexivity |]); cbn [heap set_heap loading requests];
      (split; [apply lookup_insert_eq |]);
      (split; [intros l Hl; apply lookup_insert_ne; congruence | split; reflexivity]).
Qed.

Lemma value_and_weight_need_no_wheel_witness :
  (Weight = Value ∨ Weight = Weight) ∧
  heap sample_world !! 1 = Some (HItem sample_item) ∧
  ∃ σ', setter sample_defaults image_element Weight 1 (VNumber 3) sample_world
        = (Ok (), σ') ∧
        heap σ' !! 1
        = Some (HItem (store Weight (validated sample_defaults Weight (VNumber 3))
                             sample_item)) ∧
        (∀ l, l ≠ 1 → heap σ' !! l = heap sample_world !! l) ∧
        loading σ' = loading sample_world ∧ requests σ' = requests sample_world.
Proof.
  split; [right; reflexivity |].
  split; [vm_compute; reflexivity |].
  apply (value_and_weight_need_no_wheel sample_defaults image_element Weight
           (VNumber 3) sample_world 1 sample_item).
  - right; reflexivity.
  - vm_compute; reflexivity.
Defined.

Lemma private_assigned_other D L f g val n it :
  g ≠ f → private (assigned D L f val n it) g = private it g.
Proof.
  intros Hne. unfold assigned.
  destruct f; destruct g; try congruence; try reflexivity;
    destruct (JSType_eqb (typeof val) TString); reflexivity.
Qed.

(** X2.  An assignment writes its own property and nothing else of the item:
    every other property, [_wheel] and [path] are as before, and so is
    [imageObj] unless the property is [image].  Of the wheel it changes the
    count of [refresh()] calls only, and it changes no other object of the
    heap, so no other item. *)
Theorem setter_writes_its_property_only D L f val σ this it w ws :
  owned_by σ this it w ws →
  ∃ σ' it' ws',
    setter D L f this val σ = (Ok (), σ') ∧
    heap σ' !! this = Some (HItem it') ∧ heap σ' !! w = Some (HWheel ws') ∧
    (∀ g, g ≠ f → private it' g = private it g) ∧
    _wheel it' = _wheel it ∧ path it' = path it ∧
    (f ≠ Image → _imageObj it' = _imageObj it) ∧
    items ws' = items ws ∧ getItemAngles ws' = getItemAngles ws ∧
    (∀ l, l ≠ this → l ≠ w → heap σ' !! l = heap σ !! l).
Proof.
  intros Ho.
  destruct (setter_returns D L f val σ this it w ws Ho)
    as ([] & σ' & Hrun & (Hi & _ & Hws) & Hframe & _).
  eexists σ', _, _. split; [exact Hrun |].
  split; [exact Hi |]. split; [exact Hws |].
  split; [intros g Hg; now apply private_assigned_other |].
  assert (Hsame : _wheel (assigned D L f val (requests σ) it) = _wheel it ∧
                  path (assigned D L f val (requests σ) it) = path it ∧
                  (f ≠ Image → _imageObj (assigned D L f val (requests σ) it)
                               = _imageObj it)).
  { unfold assigned. destruct f; try (repeat split; reflexivity).
    destruct (JSType_eqb (typeof val) TString); repeat split; congruence. }
  destruct Hsame as (H1 & H2 & H3).
  repeat (split; [assumption |]).
  split; [destruct (notifies f); reflexivity |].
  split; [destruct (notifies f); reflexivity | exact Hframe].
Qed.

Lemma setter_writes_its_property_only_witness :
  owned_by sample_world 1 sample_item 0 sample_wheel ∧
  ∃ σ' it' ws',
    setter sample_defaults image_element Image 1 (VString "a.png") sample_world
    = (Ok (), σ') ∧
    heap σ' !! 1 = Some (HItem it') ∧ heap σ' !! 0 = Some (HWheel ws') ∧
    (∀ g, g ≠ Image → private it' g = private sample_item g) ∧
    _wheel it' = _wheel sample_item ∧ path it' = path sample_item ∧
    (Image ≠ Image → _imageObj it' = _imageObj sample_item) ∧
    items ws' = items sample_wheel ∧
    getItemAngles ws' = getItemAngles sample_wheel ∧
    (∀ l, l ≠ 1 → l ≠ 0 → heap σ' !! l = heap sample_world !! l).
Proof.
  split; [unfold owned_by; repeat split; vm_compute; reflexivity |].
  apply (setter_writes_its_property_only sample_defaults image_element Image
           (VString "a.png") sample_world 1 sample_item 0 sample_wheel).
  unfold owned_by; repeat split; vm_compute; reflexivity.
Defined.

(** X3.  Of two assignments to the same property the second decides what the
    property reads as, whatever the first candidate was; the wheel is
    signalled for each of the two, when the property is one that signals. *)
Theorem last_assignment_wins D L f v1 v2 σ this it w ws :
  owned_by σ this it w ws →
  ∃ σ', (setter D L f this v1;; setter D L f this v2) σ = (Ok (), σ') ∧
        getter f this σ' = (Ok (validated D f v2), σ') ∧
        heap σ' !! w
        = Some (HWheel (if notifies f then refreshed (refreshed ws) else ws)).
Proof.
  intros Ho.
  destruct (two_setters D L f v1 f v2 σ this it w ws Ho)
    as ([] & σ' & Hrun & (Hi & _ & Hws) & _).
  exists σ'. split; [exact Hrun |]. split.
  - rewrite (getter_run f _ _ _ Hi). f_equal. f_equal.
    destruct f; try reflexivity. apply private_assigned_image.
  - rewrite Hws. destruct (notifies f); reflexivity.
Qed.

Lemma last_assignment_wins_witness :
  owned_by sample_world 1 sample_item 0 sample_wheel ∧
  ∃ σ', (setter sample_defaults image_element Label 1 (VString "first");;
         setter sample_defaults image_element Label 1 (VNumber 2)) sample_world
        = (Ok (), σ') ∧
        getter Label 1 σ' = (Ok (validated sample_defaults Label (VNumber 2)), σ') ∧
        heap σ' !! 0
        = Some (HWheel (if notifies Label then refreshed (refreshed sample_wheel)
                        else sample_wheel)).
Proof.
  split; [unfold owned_by; repeat split; vm_compute; reflexivity |].
  apply (last_assignment_wins sample_defaults image_element Label
           (VString "first") (VNumber 2) sample_world 1 sample_item 0 sample_wheel).
  unfold owned_by; repeat split; vm_compute; reflexivity.
Defined.

Lemma assigned_commute D L f u g v n it :
  f ≠ g →
  assigned D L g v (if loads f u then S n else n) (assigned D L f u n it)
  = assigned D L f u (if loads g v then S n else n) (assigned D L g v n it).
Proof.
  intros Hne.
  destruct f; destruct g; try congruence; cbn [loads assigned];
    try reflexivity;
    destruct (JSType_eqb (typeof u) TString);
    destruct (JSType_eqb (typeof v) TString); reflexivity.
Qed.

Lemma loads_at_most_one f u g v : f ≠ g → loads f u = false ∨ loads g v = false.
Proof. intros Hne. destruct f; destruct g; cbn [loads]; auto; congruence. Qed.

(** X4.  Assignments to two different properties commute: made in either order
    on an item that has its wheel, they return and leave the same world,
    the item, the wheel and the loads in flight included. *)
Theorem assignments_to_different_properties_commute D L f u g v σ this it w ws :
  owned_by σ this it w ws → f ≠ g →
  ∃ σ', (setter D L f this u;; setter D L g this v) σ = (Ok (), σ') ∧
        (setter D L g this v;; setter D L f this u) σ = (Ok (), σ').
Proof.
  intros Ho Hne.
  destruct (two_setters D L f u g v σ this it w ws Ho)
    as ([] & σ1 & Hrun1 & (Hi1 & _ & Hw1) & Hf1 & Hl1 & Hr1).
  destruct (two_setters D L g v f u σ this it w ws Ho)
    as ([] & σ2 & Hrun2 & (Hi2 & _ & Hw2) & Hf2 & Hl2 & Hr2).
  exists σ1. split; [exact Hrun1 |]. rewrite Hrun2. f_equal.
  cbv zeta in *. symmetry. apply world_eq.
  - apply map_eq. intros l.
    destruct (decide (l = this)) as [-> | Hlt].
    + rewrite Hi1, Hi2. now rewrite (assigned_commute D L f u g v).
    + destruct (decide (l = w)) as [-> | Hlw].
      * rewrite Hw1, Hw2. destruct (notifies f), (notifies g); reflexivity.
      * rewrite Hf1, Hf2 by assumption. reflexivity.
  - rewrite Hl1, Hl2.
    destruct (loads_at_most_one f u g v Hne) as [E | E]; rewrite E;
      [destruct (loads g v) | destruct (loads f u)]; reflexivity.
  - rewrite Hr1, Hr2.
    destruct (loads f u), (loads g v); reflexivity.
Qed.

Lemma assignments_to_different_properties_commute_witness :
  owned_by sample_world 1 sample_item 0 sample_wheel ∧ Image ≠ Value ∧
  ∃ σ', (setter sample_defaults image_element Image 1 (VString "a.png");;
         setter sample_defaults image_element Value 1 VNull) sample_world
        = (Ok (), σ') ∧
        (setter sample_defaults image_element Value 1 VNull;;
         setter sample_defaults image_element Image 1 (VString "a.png")) sample_world
        = (Ok (), σ').
Proof.
  split; [unfold owned_by; repeat split; vm_compute; reflexivity |].
  split; [discriminate |].
  apply (assignments_to_different_properties_commute sample_defaults image_element
           Image (VString "a.png") Value VNull sample_world 1 sample_item 0 sample_wheel).
  - unfold owned_by; repeat split; vm_compute; reflexivity.
  - discriminate.
Defined.

(** ** Loads of images *)

(** X5.  Every assignment of a string to [image] requests a load of its own,
    whether or not the string is the url the item already has: after two
    of them two loads are in flight, and [imageObj] is what the loader
    returned for the second. *)
Theorem every_url_assignment_requests_a_load D L v1 v2 σ this it w ws :
  owned_by σ this it w ws →
  typeof v1 = TString → typeof v2 = TString →
  ∃ σ', (set_image D L this v1;; set_image D L this v2) σ = (Ok (), σ') ∧
        requests σ' = S (S (requests σ)) ∧
        loading σ' !! requests σ = Some (RefreshOnLoad this) ∧
        loading σ' !! S (requests σ) = Some (RefreshOnLoad this) ∧
        get_imageObj this σ' = (Ok (L (S (requests σ)) v2), σ').
Proof.
  intros Ho H1 H2.
  destruct (two_setters D L Image v1 Image v2 σ this it w ws Ho)
    as ([] & σ' & Hrun & (Hi & _) & _ & Hl & Hr).
  cbv zeta in *. cbn [loads assigned] in *.
  rewrite H1, H2 in *. cbn [JSType_eqb] in *.
  exists σ'. split; [exact Hrun |]. split; [exact Hr |].
  rewrite Hl. split; [| split].
  - rewrite lookup_insert_ne by lia. apply lookup_insert_eq.
  - apply lookup_insert_eq.
  - rewrite (get_imageObj_run _ _ _ Hi). reflexivity.
Qed.

Lemma every_url_assignment_requests_a_load_witness :
  owned_by sample_world 1 sample_item 0 sample_wheel ∧
  typeof (VString "a.png") = TString ∧ typeof (VString "a.png") = TString ∧
  ∃ σ', (set_image sample_defaults image_element 1 (VString "a.png");;
         set_image sample_defaults image_element 1 (VString "a.png")) sample_world
        = (Ok (), σ') ∧
        requests σ' = S (S (requests sample_world)) ∧
        loading σ' !! requests sample_world = Some (RefreshOnLoad 1) ∧
        loading σ' !! S (requests sample_world) = Some (RefreshOnLoad 1) ∧
        get_imageObj 1 σ'
        = (Ok (image_element (S (requests sample_world)) (VString "a.png")), σ').
Proof.
  split; [unfold owned_by; repeat split; vm_compute; reflexivity |].
  split; [reflexivity |]. split; [reflexivity |].
  apply (every_url_assignment_requests_a_load sample_defaults image_element
           (VString "a.png") (VString "a.png") sample_world 1 sample_item 0 sample_wheel).
  - unfold owned_by; repeat split; vm_compute; reflexivity.
  - reflexivity.
  - reflexivity.
Defined.

(** X6.  Assigning to [image] something that is not a string, after a url,
    makes [image] read as its default and [imageObj] as [null], requests no
    load, not even of a default that is a url, and does not cancel the load
    in flight: when that load completes, the wheel is signalled a third
    time and [imageObj] stays [null]. *)
Theorem reset_of_image_cancels_no_load D L v r σ this it w ws :
  owned_by σ this it w ws →
  typeof v = TString → typeof r ≠ TString →
  ∃ σ1 σ2,
    (set_image D L this v;; set_image D L this r) σ = (Ok (), σ1) ∧
    get_image this σ1 = (Ok (image D), σ1) ∧
    get_imageObj this σ1 = (Ok VNull, σ1) ∧
    requests σ1 = S (requests σ) ∧
    loading σ1 = <[requests σ := RefreshOnLoad this]> (loading σ) ∧
    complete (requests σ) σ1 = (Ok (), σ2) ∧
    heap σ2 !! w = Some (HWheel (refreshed (refreshed (refreshed ws)))) ∧
    get_image this σ2 = (Ok (image D), σ2) ∧
    get_imageObj this σ2 = (Ok VNull, σ2).
Proof.
  intros Ho Hv Hr.
  assert (E : JSType_eqb (typeof r) TString = false)
    by (destruct (typeof r); simpl; congruence).
  destruct (two_setters D L Image v Image r σ this it w ws Ho)
    as ([] & σ1 & Hrun & Ho1 & _ & Hl1 & Hr1).
  cbv zeta in *. cbn [loads assigned notifies] in *.
  rewrite Hv, E in *. cbn [JSType_eqb] in *.
  destruct (complete_own (requests σ) σ1 this _ w _ Ho1) as (σ2 & Hc & Ho2 & _).
  { rewrite Hl1. apply lookup_insert_eq. }
  exists σ1, σ2. split; [exact Hrun |].
  rewrite (get_image_run _ _ _ (proj1 Ho1)), (get_imageObj_run _ _ _ (proj1 Ho1)).
  rewrite (get_image_run _ _ _ (proj1 Ho2)), (get_imageObj_run _ _ _ (proj1 Ho2)).
  repeat (split; [first [reflexivity | assumption] |]).
  split; [apply Ho2 | split; reflexivity].
Qed.

Lemma reset_of_image_cancels_no_load_witness :
  owned_by sample_world 1 sample_item 0 sample_wheel ∧
  typeof (VString "a.png") = TString ∧ typeof VNull ≠ TString ∧
  ∃ σ1 σ2,
    (set_image branded_defaults image_element 1 (VString "a.png");;
     set_image branded_defaults image_element 1 VNull) sample_world = (Ok (), σ1) ∧
    get_image 1 σ1 = (Ok (image branded_defaults), σ1) ∧
    get_imageObj 1 σ1 = (Ok VNull, σ1) ∧
    requests σ1 = S (requests sample_world) ∧
    loading σ1 = <[requests sample_world := RefreshOnLoad 1]> (loading sample_world) ∧
    complete (requests sample_world) σ1 = (Ok (), σ2) ∧
    heap σ2 !! 0 = Some (HWheel (refreshed (refreshed (refreshed sample_wheel)))) ∧
    get_image 1 σ2 = (Ok (image branded_defaults), σ2) ∧
    get_imageObj 1 σ2 = (Ok VNull, σ2).
Proof.
  split; [unfold owned_by; repeat split; vm_compute; reflexivity |].
  split; [reflexivity |]. split; [discriminate |].
  apply (reset_of_image_cancels_no_load branded_defaults image_element
           (VString "a.png") VNull sample_world 1 sample_item 0 sample_wheel).
  - unfold owned_by; repeat split; vm_compute; reflexivity.
  - reflexivity.
  - discriminate.
Defined.

(** ** [init] as a method of its own *)

Section Reinitialisation.

Variable D : ItemProps.
Variable L : nat → JSValue → JSValue.

(** The default [{}] of the parameter of [init]. *)
Lemma init_default_argument this :
  init D L this VUndefined = init D L this (VObject ∅).
Proof. reflexivity. Qed.

(** X7.  [init(props)] on an item that has its wheel, for [props] a data
    object, or absent, which the default of the parameter makes [{}]: it
    returns, and every property then reads as the rule of the setters gives
    for the value the object has at its key, [undefined] for a key it lacks,
    whatever the item held before; [imageObj] is what the loader returned
    when the value at [image] is a string and [null] otherwise; the wheel
    has been signalled eight times. *)
Theorem init_resets_every_property props bag σ this it w ws :
  owned_by σ this it w ws →
  props = VObject bag ∨ (props = VUndefined ∧ bag = ∅) →
  ∃ σ', init D L this props σ = (Ok (), σ') ∧
        (∀ f, getter f this σ'
              = (Ok (validated D f (getProp bag (key f))), σ')) ∧
        get_imageObj this σ'
        = (Ok (if JSType_eqb (typeof (getProp bag (key Image))) TString
               then L (requests σ) (getProp bag (key Image)) else VNull), σ') ∧
        heap σ' !! w = Some (HWheel (Nat.iter 8 refreshed ws)).
Proof.
  intros Ho Hp.
  assert (Hsame : init D L this props = init D L this (VObject bag)).
  { destruct Hp as [-> | [-> ->]]; [reflexivity | apply init_default_argument]. }
  rewrite Hsame.
  destruct (init_of_bag D L bag σ this it w ws Ho)
    as ([] & σ' & Hrun & Hi & _ & Hws).
  exists σ'. split; [exact Hrun |]. split; [| split; [| exact Hws]].
  - intros f. rewrite (getter_run f _ _ _ Hi), private_initialised. reflexivity.
  - rewrite (get_imageObj_run _ _ _ Hi), imageObj_initialised. reflexivity.
Qed.

(** X8.  [init(null)] throws a [TypeError] at the first property it reads, and
    changes nothing: the default [{}] of the parameter stands in for an
    absent argument only. *)
Theorem init_of_null_throws this σ :
  ∃ msg, init D L this VNull σ = (Throw (TypeError msg), σ).
Proof. eexists. unfold init. cbn [is_undefined readProp]. reflexivity. Qed.

End Reinitialisation.

Lemma init_resets_every_property_witness :
  owned_by sample_world 1 sample_item 0 sample_wheel ∧
  (VObject sample_bag = VObject sample_bag ∨
   (VObject sample_bag = VUndefined ∧ sample_bag = ∅)) ∧
  ∃ σ', init sample_defaults image_element 1 (VObject sample_bag) sample_world
        = (Ok (), σ') ∧
        (∀ f, getter f 1 σ'
              = (Ok (validated sample_defaults f (getProp sample_bag (key f))), σ')) ∧
        get_imageObj 1 σ'
        = (Ok (if JSType_eqb (typeof (getProp sample_bag (key Image))) TString
               then image_element (requests sample_world) (getProp sample_bag (key Image))
               else VNull), σ') ∧
        heap σ' !! 0 = Some (HWheel (Nat.iter 8 refreshed sample_wheel)).
Proof.
  split; [unfold owned_by; repeat split; vm_compute; reflexivity |].
  split; [left; reflexivity |].
  apply (init_resets_every_property sample_defaults image_element (VObject sample_bag)
           sample_bag sample_world 1 sample_item 0 sample_wheel).
  - unfold owned_by; repeat split; vm_compute; reflexivity.
  - left; reflexivity.
Defined.

(** ** More of the constructor *)









(** X10.  A construction that the validation refuses has had no effect: every
    object of the heap is as it was, no wheel has been signalled and no load
    requested.  When both arguments are wrong the error is the one of the
    wheel, which is checked first. *)
Theorem refused_construction_changes_nothing D L wheel props σ :
  isObject wheel = false ∨
  (props ≠ VUndefined ∧ isObject props = false ∧ props ≠ VNull) →
  ∃ e σ', constructor D L wheel props σ = (Throw e, σ') ∧ InvalidArgument e ∧
          (isObject wheel = false → e = Error "wheel must be an instance of Wheel") ∧
          (∀ l o, heap σ !! l = Some o → heap σ' !! l = Some o) ∧
          loading σ' = loading σ ∧ requests σ' = requests σ.
Proof.
  intros Hbad.
  assert (Hkeep : ∀ l o, heap σ !! l = Some o →
            heap (set_heap (<[fresh (dom (heap σ)) := HItem blank]> (heap σ)) σ) !! l
            = Some o).
  { intros l o Hl. cbn [heap set_heap]. pose proof (fresh_heap σ).
    rewrite lookup_insert_ne by congruence. exact Hl. }
  unfold constructor. rewrite (bind_run _ _ _ _ _ (alloc_run _ _)).
  destruct (isObject wheel) eqn:Hw; cbn [negb].
  - destruct Hbad as [Hbad | (Hu & Ho & Hn)]; [discriminate |].
    replace (if is_undefined props then VObject ∅ else props) with props
      by (destruct props; try reflexivity; congruence).
    rewrite Ho. replace (is_null props) with false
      by (destruct props; try reflexivity; congruence).
    eexists _, _. split; [reflexivity |].
    split; [right; reflexivity |]. split; [discriminate |].
    split; [exact Hkeep | split; reflexivity].
  - eexists _, _. split; [reflexivity |].
    split; [left; reflexivity |]. split; [reflexivity |].
    split; [exact Hkeep | split; reflexivity].
Qed.

Lemma refused_construction_changes_nothing_witness :
  (isObject (VNumber 1) = false ∨
   (VString "bag" ≠ VUndefined ∧ isObject (VString "bag") = false ∧
    VString "bag" ≠ VNull)) ∧
  ∃ e σ', constructor sample_defaults image_element (VNumber 1) (VString "bag")
            sample_world = (Throw e, σ') ∧ InvalidArgument e ∧
          (isObject (VNumber 1) = false →
           e = Error "wheel must be an instance of Wheel") ∧
          (∀ l o, heap sample_world !! l = Some o → heap σ' !! l = Some o) ∧
          loading σ' = loading sample_world ∧ requests σ' = requests sample_world.
Proof.
  split; [left; reflexivity |].
  apply (refused_construction_changes_nothing sample_defaults image_element
           (VNumber 1) (VString "bag") sample_world).
  left; reflexivity.
Defined.

(** X11.  The constructor does not enter the item into the sequence of the wheel.
    On a wheel whose sequence holds objects of the heap, the new item is an
    object that was not there before, and [getIndex] on it throws "Item not
    found in parent Wheel" until the wheel takes it in. *)
Theorem new_item_is_not_in_the_wheel D L w ws props σ :
  heap σ !! w = Some (HWheel ws) →
  (props = VUndefined ∨ isObject props = true ∨ props = VNull) →
  (∀ l, l ∈ items ws → is_Some (heap σ !! l)) →
  ∃ this σ' ws',
    constructor D L (VRef w) props σ = (Ok this, σ') ∧
    heap σ !! this = None ∧
    heap σ' !! w = Some (HWheel ws') ∧ items ws' = items ws ∧
    getIndex this σ' = (Throw NotFound, σ').
Proof.
  intros Hws Hp Hitems.
  destruct (constructor_succeeds D L w ws props σ Hws Hp)
    as (this & σ' & it' & Hrun & Hfresh & Ho).
  exists this, σ', (Nat.iter 8 refreshed ws).
  split; [exact Hrun |]. split; [exact Hfresh |].
  split; [apply Ho |]. split; [reflexivity |].
  apply (getIndex_absent _ _ _ _ _ Ho).
  change (this ∉ items ws). intros Hin.
  destruct (Hitems this Hin) as (o & Hsome). congruence.
Qed.

Lemma new_item_is_not_in_the_wheel_witness :
  heap (world_of single_wheel) !! 0 = Some (HWheel single_wheel) ∧
  (VUndefined = VUndefined ∨ isObject VUndefined = true ∨ VUndefined = VNull) ∧
  (∀ l, l ∈ items single_wheel → is_Some (heap (world_of single_wheel) !! l)) ∧
  ∃ this σ' ws',
    constructor sample_defaults image_element (VRef 0) VUndefined (world_of single_wheel)
    = (Ok this, σ') ∧
    heap (world_of single_wheel) !! this = None ∧
    heap σ' !! 0 = Some (HWheel ws') ∧ items ws' = items single_wheel ∧
    getIndex this σ' = (Throw NotFound, σ').
Proof.
  assert (Hitems : ∀ l, l ∈ items single_wheel →
                        is_Some (heap (world_of single_wheel) !! l)).
  { intros l Hl. apply list_elem_of_singleton in Hl. subst l.
    exists (HItem sample_item). vm_compute; reflexivity. }
  split; [vm_compute; reflexivity |].
  split; [left; reflexivity |].
  split; [exact Hitems |].
  apply (new_item_is_not_in_the_wheel sample_defaults image_element 0 single_wheel
           VUndefined (world_of single_wheel)).
  - vm_compute; reflexivity.
  - left; reflexivity.
  - exact Hitems.
Defined.

(** X12.  A default image that is a url is bound by [new Item(wheel, null)] only.
    With an absent bag, or a data object whose [image] is not a string,
    [image] reads as the default url and [imageObj] as [null]: the setter
    falls back on the url without loading it.  With [null] for the bag the
    constructor assigns the defaults themselves, and [imageObj] is what the
    loader returned for the default url. *)
Theorem default_image_is_bound_only_for_null D L w ws σ s :
  heap σ !! w = Some (HWheel ws) → image D = VString s →
  (∀ props bag, props = VObject bag ∨ (props = VUndefined ∧ bag = ∅) →
                typeof (getProp bag (key Image)) ≠ TString →
     ∃ this σ', constructor D L (VRef w) props σ = (Ok this, σ') ∧
                get_image this σ' = (Ok (VString s), σ') ∧
                get_imageObj this σ' = (Ok VNull, σ')) ∧
  (∃ this σ', constructor D L (VRef w) VNull σ = (Ok this, σ') ∧
              get_image this σ' = (Ok (VString s), σ') ∧
              get_imageObj this σ' = (Ok (L (requests σ) (VString s)), σ')).
Proof.
  intros Hws Himg. split.
  - intros props bag Hp Hty.
    assert (Hacc : props = VUndefined ∨ props = VNull ∨ ∃ b, props = VObject b)
      by (destruct Hp as [-> | [-> _]]; eauto).
    destruct (constructor_returns D L w ws props σ Hws Hacc)
      as (this & σ' & base & Hrun & _ & (Hi & _)).
    exists this, σ'. split; [exact Hrun |].
    assert (Hsrc : init_bag D props = bag)
      by (destruct Hp as [-> | [-> ->]]; reflexivity).
    assert (E : JSType_eqb (typeof (getProp bag (key Image))) TString = false)
      by (destruct (typeof (getProp bag (key Image))); simpl; congruence).
    rewrite (get_image_run _ _ _ Hi), (get_imageObj_run _ _ _ Hi).
    change (_image ?x) with (private x Image).
    rewrite private_initialised, imageObj_initialised, Hsrc.
    unfold validated, bag_values. cbn [expected prop]. rewrite E, Himg.
    split; reflexivity.
  - destruct (constructor_returns D L w ws VNull σ Hws)
      as (this & σ' & base & Hrun & _ & (Hi & _)); [auto |].
    exists this, σ'. split; [exact Hrun |].
    rewrite (get_image_run _ _ _ Hi), (get_imageObj_run _ _ _ Hi).
    change (_image ?x) with (private x Image).
    rewrite private_initialised, imageObj_initialised.
    cbn [init_bag]. rewrite (bag_values_ItemProps D Image). cbn [prop].
    unfold validated. cbn [expected prop]. rewrite Himg. split; reflexivity.
Qed.

Lemma default_image_is_bound_only_for_null_witness :
  heap sample_world !! 0 = Some (HWheel sample_wheel) ∧
  image branded_defaults = VString "logo.png" ∧
  (∀ props bag, props = VObject bag ∨ (props = VUndefined ∧ bag = ∅) →
                typeof (getProp bag (key Image)) ≠ TString →
     ∃ this σ', constructor branded_defaults image_element (VRef 0) props sample_world
                = (Ok this, σ') ∧
                get_image this σ' = (Ok (VString "logo.png"), σ') ∧
                get_imageObj this σ' = (Ok VNull, σ')) ∧
  (∃ this σ', constructor branded_defaults image_element (VRef 0) VNull sample_world
              = (Ok this, σ') ∧
              get_image this σ' = (Ok (VString "logo.png"), σ') ∧
              get_imageObj this σ'
              = (Ok (image_element (requests sample_world) (VString "logo.png")), σ')).
Proof.
  split; [vm_compute; reflexivity |].
  split; [reflexivity |].
  apply (default_image_is_bound_only_for_null branded_defaults image_element
           0 sample_wheel sample_world "logo.png").
  - vm_compute; reflexivity.
  - reflexivity.
Defined.

(** ** More of the queries *)

Lemma entry_missing (angles : list Angle) n σ :
  angles !! n = None →
  entry angles (Z.of_nat n) σ
  = (Throw (TypeError "Cannot read properties of undefined"), σ).
Proof.
  intros Hn. unfold entry.
  replace (Z.of_nat n <? 0)%Z with false by (symmetry; apply Z.ltb_ge; lia).
  rewrite Nat2Z.id, Hn. reflexivity.
Qed.

(** X13.  An item that is in the sequence of its wheel, at a position for which
    the table of the wheel has no entry: [getIndex] returns the position,
    and the four angle queries throw a [TypeError], not the error of an item
    that is not found. *)
Theorem angle_of_a_missing_entry σ this it w ws :
  owned_by σ this it w ws → this ∈ items ws →
  (∀ n, items ws !! n = Some this → getItemAngles ws !! n = None) →
  (∃ n, getIndex this σ = (Ok (Z.of_nat n), σ) ∧ items ws !! n = Some this) ∧
  ∃ msg, getStartAngle this σ = (Throw (TypeError msg), σ) ∧
         getEndAngle this σ = (Throw (TypeError msg), σ) ∧
         getCenterAngle this σ = (Throw (TypeError msg), σ) ∧
         ∀ u, getRandomAngle u this σ = (Throw (TypeError msg), σ).
Proof.
  intros Ho Hin Hnone.
  destruct (getIndex_present _ _ _ _ _ Ho Hin) as (n & Hidx & Hn & _).
  split; [eauto |].
  pose proof (entry_missing _ _ σ (Hnone n Hn)) as Hentry.
  assert (Hs : getStartAngle this σ
               = (Throw (TypeError "Cannot read properties of undefined"), σ)).
  { unfold getStartAngle.
    rewrite (bind_run _ _ _ _ _ (this_item_run _ _ _ (proj1 Ho))).
    rewrite (bind_run _ _ _ _ _ (wheel_state_run _ _ _ _ _ Ho)).
    rewrite (bind_run _ _ _ _ _ Hidx).
    now rewrite (throws_bind _ _ _ _ _ Hentry). }
  eexists. split; [exact Hs |].
  unfold getEndAngle, getCenterAngle, getRandomAngle.
  rewrite !(bind_run _ _ _ _ _ (this_item_run _ _ _ (proj1 Ho))).
  rewrite !(bind_run _ _ _ _ _ (wheel_state_run _ _ _ _ _ Ho)).
  rewrite !(bind_run _ _ _ _ _ Hidx).
  rewrite !(throws_bind _ _ _ _ _ Hentry).
  repeat split. intros u. now rewrite (throws_bind _ _ _ _ _ Hs).
Qed.

Lemma angle_of_a_missing_entry_witness :
  owned_by (world_of short_wheel) 1 sample_item 0 short_wheel ∧
  1 ∈ items short_wheel ∧
  (∀ n, items short_wheel !! n = Some 1 → getItemAngles short_wheel !! n = None) ∧
  (∃ n, getIndex 1 (world_of short_wheel) = (Ok (Z.of_nat n), world_of short_wheel) ∧
        items short_wheel !! n = Some 1) ∧
  ∃ msg, getStartAngle 1 (world_of short_wheel)
         = (Throw (TypeError msg), world_of short_wheel) ∧
         getEndAngle 1 (world_of short_wheel)
         = (Throw (TypeError msg), world_of short_wheel) ∧
         getCenterAngle 1 (world_of short_wheel)
         = (Throw (TypeError msg), world_of short_wheel) ∧
         ∀ u, getRandomAngle u 1 (world_of short_wheel)
              = (Throw (TypeError msg), world_of short_wheel).
Proof.
  assert (Hnone : ∀ n, items short_wheel !! n = Some 1 →
                       getItemAngles short_wheel !! n = None).
  { intros [| [| n]] Hn; [discriminate | reflexivity | reflexivity]. }
  split; [unfold owned_by; repeat split; vm_compute; reflexivity |].
  split; [apply list_elem_of_further, list_elem_of_here |].
  split; [exact Hnone |].
  apply (angle_of_a_missing_entry (world_of short_wheel) 1 sample_item 0 short_wheel).
  - unfold owned_by; repeat split; vm_compute; reflexivity.
  - apply list_elem_of_further, list_elem_of_here.
  - exact Hnone.
Defined.

Lemma ro_ret {A} (a : A) : reads_only (mret a).
Proof. intros σ. reflexivity. Qed.

Lemma ro_throw {A} e : reads_only (@throw A e).
Proof. intros σ. reflexivity. Qed.

Lemma ro_bind {A B} (m : M A) (k : A → M B) :
  reads_only m → (∀ a, reads_only (k a)) → reads_only (m ≫= k).
Proof.
  intros Hm Hk σ. unfold mbind, M_bind. specialize (Hm σ).
  destruct (m σ) as [[a | e] σ1]; simpl in Hm; subst σ1; [apply Hk | reflexivity].
Qed.

Lemma ro_this_item this : reads_only (this_item this).
Proof.
  intros σ. unfold this_item. destruct (heap σ !! this) as [[| |] |]; reflexivity.
Qed.

Lemma ro_wheel_state wheel : reads_only (wheel_state wheel).
Proof.
  intros σ. unfold wheel_state. destruct wheel; try reflexivity.
  destruct (heap σ !! l) as [[| |] |]; reflexivity.
Qed.

Lemma ro_entry angles i : reads_only (entry angles i).
Proof.
  intros σ. unfold entry.
  destruct (if (i <? 0)%Z then None else angles !! Z.to_nat i); reflexivity.
Qed.

Lemma ro_getIndex this : reads_only (getIndex this).
Proof.
  unfold getIndex. apply ro_bind; [apply ro_this_item | intros it].
  apply ro_bind; [apply ro_wheel_state | intros ws].
  destruct (_ =? _)%Z; [apply ro_throw | apply ro_ret].
Qed.

(** X14.  The getters and the queries write nothing: whether they return or
    throw, the item, the wheel (which they do not signal) and the loads are
    as before. *)
Theorem queries_change_nothing this :
  (∀ f, reads_only (getter f this)) ∧ reads_only (get_imageObj this) ∧
  reads_only (getIndex this) ∧ reads_only (getStartAngle this) ∧
  reads_only (getEndAngle this) ∧ reads_only (getCenterAngle this) ∧
  ∀ u, reads_only (getRandomAngle u this).
Proof.
  assert (Hangle : ∀ (k : Angle → M float), (∀ a, reads_only (k a)) →
            reads_only (it ← this_item this; w ← wheel_state (_wheel it);
                        i ← getIndex this; angle ← entry (getItemAngles w) i;
                        k angle)).
  { intros k Hk. apply ro_bind; [apply ro_this_item | intros it].
    apply ro_bind; [apply ro_wheel_state | intros ws].
    apply ro_bind; [apply ro_getIndex | intros i].
    apply ro_bind; [apply ro_entry | exact Hk]. }
  assert (Hs : reads_only (getStartAngle this))
    by (apply Hangle; intros a; apply ro_ret).
  assert (He : reads_only (getEndAngle this))
    by (apply Hangle; intros a; apply ro_ret).
  split.
  { intros f. destruct f; apply ro_bind;
      try apply ro_this_item; intros it; apply ro_ret. }
  split; [apply ro_bind; [apply ro_this_item | intros it; apply ro_ret] |].
  split; [apply ro_getIndex |].
  split; [exact Hs |]. split; [exact He |].
  split; [apply Hangle; intros a; apply ro_ret |].
  intros u. unfold getRandomAngle.
  apply ro_bind; [exact Hs | intros s].
  apply ro_bind; [exact He | intros e; apply ro_ret].
Qed.

(** ** One item and the others *)

Lemma spares_ret {A} this (a : A) : spares this (mret a).
Proof. intros σ l it _ Hl. exact Hl. Qed.

Lemma spares_throw {A} this e : spares this (@throw A e).
Proof. intros σ l it _ Hl. exact Hl. Qed.

Lemma spares_bind {A B} this (m : M A) (k : A → M B) :
  spares this m → (∀ a, spares this (k a)) → spares this (m ≫= k).
Proof.
  intros Hm Hk σ l it Hne Hl. unfold mbind, M_bind.
  specialize (Hm σ l it Hne Hl).
  destruct (m σ) as [[a | e] σ1]; simpl in Hm; [now apply Hk | exact Hm].
Qed.

Lemma spares_this_item this this' : spares this (this_item this').
Proof.
  intros σ l it _ Hl. unfold this_item.
  destruct (heap σ !! this') as [[| |] |]; exact Hl.
Qed.

Lemma spares_update this upd : spares this (update this upd).
Proof.
  intros σ l it Hne Hl. unfold update, mbind, M_bind, this_item.
  destruct (heap σ !! this) as [[it0 | |] |]; try exact Hl.
  cbn [put snd heap set_heap]. rewrite lookup_insert_ne by congruence. exact Hl.
Qed.

Lemma spares_alloc this o : spares this (alloc o).
Proof.
  intros σ l it _ Hl. cbn [alloc snd heap set_heap].
  pose proof (fresh_heap σ). rewrite lookup_insert_ne by congruence. exact Hl.
Qed.

Lemma spares_refresh this wheel : spares this (refresh wheel).
Proof.
  intros σ l it _ Hl. unfold refresh. destruct wheel; try exact Hl.
  destruct (heap σ !! l0) as [[| ws |] |] eqn:E; try exact Hl.
  cbn [snd heap set_heap]. rewrite lookup_insert_ne by congruence. exact Hl.
Qed.

Lemma spares_wheel_refresh this : spares this (wheel_refresh this).
Proof.
  unfold wheel_refresh. apply spares_bind; [apply spares_this_item | intros it].
  apply spares_refresh.
Qed.

Lemma spares_loadImage L this url cb : spares this (loadImage L url cb).
Proof. intros σ l it _ Hl. exact Hl. Qed.

Lemma spares_readProp this o f : spares this (readProp o f).
Proof.
  intros σ l it _ Hl. unfold readProp. destruct o; try exact Hl.
  destruct (heap σ !! l0) as [[| |] |]; exact Hl.
Qed.

Lemma spares_for_each {A} this (xs : list A) (body : A → M ()) :
  (∀ x, spares this (body x)) → spares this (for_each xs body).
Proof.
  intros Hbody. induction xs as [| x xs IH]; simpl.
  - apply spares_ret.
  - apply spares_bind; auto.
Qed.

Ltac sparing :=
  lazymatch goal with
  | |- spares _ (_ ≫= _) => apply spares_bind; [sparing | intros ?; sparing]
  | |- spares _ (if ?b then _ else _) => destruct b; sparing
  | |- spares _ (mret _) => apply spares_ret
  | |- spares _ (throw _) => apply spares_throw
  | |- spares _ (update _ _) => apply spares_update
  | |- spares _ (alloc _) => apply spares_alloc
  | |- spares _ (wheel_refresh _) => apply spares_wheel_refresh
  | |- spares _ (loadImage _ _ _) => apply spares_loadImage
  | |- spares _ (readProp _ _) => apply spares_readProp
  | |- spares _ (for_each _ _) => apply spares_for_each; intros ?; sparing
  end.

Lemma spares_setter D L f this val : spares this (setter D L f this val).
Proof.
  destruct f; cbn [setter];
    unfold set_backgroundColor, set_image, set_imageOpacity, set_imageRadius,
      set_imageRotation, set_imageScale, set_label, set_labelColor, set_value,
      set_weight; sparing.
Qed.

Lemma spares_init D L this props : spares this (init D L this props).
Proof.
  unfold init.
  repeat first
    [ apply (spares_setter D L BackgroundColor) | apply (spares_setter D L Image)
    | apply (spares_setter D L ImageOpacity) | apply (spares_setter D L ImageRadius)
    | apply (spares_setter D L ImageRotation) | apply (spares_setter D L ImageScale)
    | apply (spares_setter D L Label) | apply (spares_setter D L LabelColor)
    | apply (spares_setter D L Value) | apply (spares_setter D L Weight)
    | apply spares_readProp
    | apply spares_bind; [| intros ?] ].
Qed.

Ltac sparing_with_init :=
  lazymatch goal with
  | |- spares _ (_ ≫= _) =>
      apply spares_bind; [sparing_with_init | intros ?; sparing_with_init]
  | |- spares _ (if ?b then _ else _) => destruct b; sparing_with_init
  | |- spares _ (init _ _ _ _) => apply spares_init
  | |- spares _ (for_each _ _) =>
      apply spares_for_each; intros ?; sparing_with_init
  | |- _ => sparing
  end.

(** X15.  No method of an item writes to another item.  An assignment, [init]
    and the construction of a new item leave every other item of the heap
    with all its fields as they were, whatever the arguments are and
    whether the method returns or throws. *)
Theorem other_items_are_left_alone D L σ l it :
  heap σ !! l = Some (HItem it) →
  (∀ this f val, this ≠ l → heap (setter D L f this val σ).2 !! l = Some (HItem it)) ∧
  (∀ this props, this ≠ l → heap (init D L this props σ).2 !! l = Some (HItem it)) ∧
  (∀ wheel props, heap (constructor D L wheel props σ).2 !! l = Some (HItem it)).
Proof.
  intros Hl. split; [| split].
  - intros this f val Hne. apply spares_setter; [congruence | exact Hl].
  - intros this props Hne. apply spares_init; [congruence | exact Hl].
  - intros wheel props. unfold constructor.
    rewrite (bind_run _ _ _ _ _ (alloc_run _ _)).
    pose proof (fresh_heap σ) as Hfresh.
    match goal with |- heap (?m ?s).2 !! _ = _ =>
      assert (Hs : spares (fresh (dom (heap σ))) m)
    end.
    { sparing_with_init. }
    apply Hs; [congruence |].
    cbn [heap set_heap]. rewrite lookup_insert_ne by congruence. exact Hl.
Qed.

Lemma other_items_are_left_alone_witness :
  heap crowded_world !! 3 = Some (HItem other_item) ∧
  (∀ this f val, this ≠ 3 →
     heap (setter sample_defaults image_element f this val crowded_world).2 !! 3
     = Some (HItem other_item)) ∧
  (∀ this props, this ≠ 3 →
     heap (init sample_defaults image_element this props crowded_world).2 !! 3
     = Some (HItem other_item)) ∧
  (∀ wheel props,
     heap (constructor sample_defaults image_element wheel props crowded_world).2 !! 3
     = Some (HItem other_item)).
Proof.
  split; [vm_compute; reflexivity |].
  apply (other_items_are_left_alone sample_defaults image_element crowded_world 3
           other_item).
  vm_compute; reflexivity.
Defined.

(** ** An item as the property bag *)

(** X16.  An item given as the bag of [new Item(wheel, item)] is read through
    its accessors: the new item is another object, each of its properties
    reads as the rule of the setters gives for the property of the same
    name of the given item, [imageObj] is what the loader returned when the
    [image] of the given item is a string, so the image is loaded anew, and
    [null] otherwise; the given item is left as it was. *)
Theorem item_as_property_bag D L w ws l other σ :
  heap σ !! w = Some (HWheel ws) → heap σ !! l = Some (HItem other) →
  ∃ this σ',
    constructor D L (VRef w) (VRef l) σ = (Ok this, σ') ∧
    this ≠ l ∧ heap σ !! this = None ∧
    heap σ' !! l = Some (HItem other) ∧
    (∀ f, getter f this σ' = (Ok (validated D f (private other f)), σ')) ∧
    get_imageObj this σ'
    = (Ok (if JSType_eqb (typeof (_image other)) TString
           then L (requests σ) (_image other) else VNull), σ') ∧
    heap σ' !! w = Some (HWheel (Nat.iter 8 refreshed ws)).
Proof.
  intros Hws Hl.
  destruct (constructor_runs D L w ws (VRef l) σ
              (fun σ1 => heap σ1 !! l = Some (HItem other))
              (fun this σ' => ∃ base,
                 owned_by σ' this
                   (initialised D L (private other) (requests σ) base) w
                   (Nat.iter 8 refreshed ws) ∧
                 heap σ' !! l = Some (HItem other)) Hws)
    as (this & σ' & Hrun & Hfresh & base & Ho & Hl').
  - right; left; reflexivity.
  - exact Hl.
  - intros o σ1 H1. apply (spares_alloc (S l)); [lia | exact H1].
  - intros this upd σ1 Hfresh H1. apply spares_update; [congruence | exact H1].
  - intros this σ1 it1 Hfresh H1 Ho1 Hr1.
    change (init_source D (VRef l)) with (VRef l). rewrite <- Hr1.
    eapply returns_weaken;
      [apply (init_returns D L (VRef l) (private other)
                (fun σ2 => heap σ2 !! l = Some (HItem other)) this);
       [ intros f σ2 H2; now apply readProp_item
       | intros f v σ2 H2; apply spares_setter; [congruence | exact H2]
       | exact H1 | exact Ho1 ] |].
    intros [] σ' (Ho' & Hl'). eauto.
  - exists this, σ'. split; [exact Hrun |].
    split; [congruence |]. split; [exact Hfresh |]. split; [exact Hl' |].
    pose proof (proj1 Ho) as Hi.
    split; [| split; [| apply Ho]].
    + intros f. rewrite (getter_run f _ _ _ Hi), private_initialised. reflexivity.
    + rewrite (get_imageObj_run _ _ _ Hi), imageObj_initialised. reflexivity.
Qed.

Lemma item_as_property_bag_witness :
  heap sample_world !! 0 = Some (HWheel sample_wheel) ∧
  heap sample_world !! 1 = Some (HItem sample_item) ∧
  ∃ this σ',
    constructor sample_defaults image_element (VRef 0) (VRef 1) sample_world
    = (Ok this, σ') ∧
    this ≠ 1 ∧ heap sample_world !! this = None ∧
    heap σ' !! 1 = Some (HItem sample_item) ∧
    (∀ f, getter f this σ'
          = (Ok (validated sample_defaults f (private sample_item f)), σ')) ∧
    get_imageObj this σ'
    = (Ok (if JSType_eqb (typeof (_image sample_item)) TString
           then image_element (requests sample_world) (_image sample_item)
           else VNull), σ') ∧
    heap σ' !! 0 = Some (HWheel (Nat.iter 8 refreshed sample_wheel)).
Proof.
  split; [vm_compute; reflexivity |].
  split; [vm_compute; reflexivity |].
  apply (item_as_property_bag sample_defaults image_element 0 sample_wheel 1
           sample_item sample_world).
  - vm_compute; reflexivity.
  - vm_compute; reflexivity.
Defined.

(** X17.  [init(item)] with another item for the argument copies that item
    through the accessors of both: every property of the receiver then
    reads as the rule of the setters gives for the property of the same
    name of the argument, and the argument is left as it was. *)
Theorem init_from_another_item D L l other σ this it w ws :
  owned_by σ this it w ws → heap σ !! l = Some (HItem other) → l ≠ this →
  ∃ σ', init D L this (VRef l) σ = (Ok (), σ') ∧
        heap σ' !! l = Some (HItem other) ∧
        (∀ f, getter f this σ' = (Ok (validated D f (private other f)), σ')) ∧
        get_imageObj this σ'
        = (Ok (if JSType_eqb (typeof (_image other)) TString
               then L (requests σ) (_image other) else VNull), σ') ∧
        heap σ' !! w = Some (HWheel (Nat.iter 8 refreshed ws)).
Proof.
  intros Ho Hl Hne.
  destruct (init_returns D L (VRef l) (private other)
              (fun σ2 => heap σ2 !! l = Some (HItem other)) this)
    with (σ := σ) (it := it) (w := w) (ws := ws)
    as ([] & σ' & Hrun & Ho' & Hl').
  - intros f σ2 H2. now apply readProp_item.
  - intros f v σ2 H2. apply spares_setter; [exact Hne | exact H2].
  - exact Hl.
  - exact Ho.
  - exists σ'. split; [exact Hrun |]. split; [exact Hl' |].
    pose proof (proj1 Ho') as Hi.
    split; [| split; [| apply Ho']].
    + intros f. rewrite (getter_run f _ _ _ Hi), private_initialised. reflexivity.
    + rewrite (get_imageObj_run _ _ _ Hi), imageObj_initialised. reflexivity.
Qed.

Lemma init_from_another_item_witness :
  owned_by crowded_world 1 sample_item 0 sample_wheel ∧
  heap crowded_world !! 3 = Some (HItem other_item) ∧ 3 ≠ 1 ∧
  ∃ σ', init sample_defaults image_element 1 (VRef 3) crowded_world = (Ok (), σ') ∧
        heap σ' !! 3 = Some (HItem other_item) ∧
        (∀ f, getter f 1 σ'
              = (Ok (validated sample_defaults f (private other_item f)), σ')) ∧
        get_imageObj 1 σ'
        = (Ok (if JSType_eqb (typeof (_image other_item)) TString
               then image_element (requests crowded_world) (_image other_item)
               else VNull), σ') ∧
        heap σ' !! 0 = Some (HWheel (Nat.iter 8 refreshed sample_wheel)).
Proof.
  split; [unfold owned_by; repeat split; vm_compute; reflexivity |].
  split; [vm_compute; reflexivity |].
  split; [lia |].
  apply (init_from_another_item sample_defaults image_element 3 other_item
           crowded_world 1 sample_item 0 sample_wheel).
  - unfold owned_by; repeat split; vm_compute; reflexivity.
  - vm_compute; reflexivity.
  - lia.
Defined.

(** The label, the color and the weight of the item at [3], taken over by
    the item at [1]. *)
Example init_of_the_second_item :
  let copy := init sample_defaults image_element 1 (VRef 3) in
  ((copy;; get_label 1) crowded_world).1 = Ok (VString "two") ∧
  ((copy;; get_backgroundColor 1) crowded_world).1 = Ok (VString "#fff") ∧
  ((copy;; get_weight 1) crowded_world).1 = Ok (VNumber 2) ∧
  ((copy;; get_value 1) crowded_world).1 = Ok VNull.
Proof. vm_compute. repeat split. Qed.

(** ** The random angle *)

(** X18.  On an item that is in the sequence of its wheel, at a position where
    the table has an entry, [getRandomAngle] calls [util.getRandomFloat]
    with the start and the end of that entry, in that order, and returns
    what the helper returns as it is, whatever that is: the method neither
    clamps nor checks the value, and writes nothing. *)
Theorem random_angle_is_the_helper_result σ this it w ws :
  owned_by σ this it w ws → this ∈ items ws →
  (List.length (items ws) ≤ List.length (getItemAngles ws))%nat →
  ∃ n a, getIndex this σ = (Ok (Z.of_nat n), σ) ∧
         getItemAngles ws !! n = Some a ∧
         getStartAngle this σ = (Ok (start a), σ) ∧
         getEndAngle this σ = (Ok (end_ a), σ) ∧
         ∀ u, getRandomAngle u this σ = (Ok (u (start a) (end_ a)), σ).
Proof.
  intros Ho Hin Hlen.
  destruct (getIndex_present _ _ _ _ _ Ho Hin) as (n & Hidx & Hn & _).
  destruct (lookup_lt_is_Some_2 (getItemAngles ws) n) as (a & Ha).
  { apply lookup_lt_Some in Hn. lia. }
  assert (Hs : getStartAngle this σ = (Ok (start a), σ)).
  { unfold getStartAngle.
    rewrite (bind_run _ _ _ _ _ (this_item_run _ _ _ (proj1 Ho))).
    rewrite (bind_run _ _ _ _ _ (wheel_state_run _ _ _ _ _ Ho)).
    rewrite (bind_run _ _ _ _ _ Hidx).
    rewrite (bind_run _ _ _ _ _ (entry_run _ _ _ _ Ha)). reflexivity. }
  assert (He : getEndAngle this σ = (Ok (end_ a), σ)).
  { unfold getEndAngle.
    rewrite (bind_run _ _ _ _ _ (this_item_run _ _ _ (proj1 Ho))).
    rewrite (bind_run _ _ _ _ _ (wheel_state_run _ _ _ _ _ Ho)).
    rewrite (bind_run _ _ _ _ _ Hidx).
    rewrite (bind_run _ _ _ _ _ (entry_run _ _ _ _ Ha)). reflexivity. }
  exists n, a. split; [exact Hidx |]. split; [exact Ha |].
  split; [exact Hs |]. split; [exact He |].
  intros u. unfold getRandomAngle.
  rewrite (bind_run _ _ _ _ _ Hs), (bind_run _ _ _ _ _ He). reflexivity.
Qed.

Lemma random_angle_is_the_helper_result_witness :
  owned_by (world_of weighted_wheel) 1 sample_item 0 weighted_wheel ∧
  1 ∈ items weighted_wheel ∧
  (List.length (items weighted_wheel) ≤ List.length (getItemAngles weighted_wheel))%nat ∧
  ∃ n a, getIndex 1 (world_of weighted_wheel) = (Ok (Z.of_nat n), world_of weighted_wheel) ∧
         getItemAngles weighted_wheel !! n = Some a ∧
         getStartAngle 1 (world_of weighted_wheel)
         = (Ok (start a), world_of weighted_wheel) ∧
         getEndAngle 1 (world_of weighted_wheel)
         = (Ok (end_ a), world_of weighted_wheel) ∧
         ∀ u, getRandomAngle u 1 (world_of weighted_wheel)
              = (Ok (u (start a) (end_ a)), world_of weighted_wheel).
Proof.
  split; [unfold owned_by; repeat split; vm_compute; reflexivity |].
  split; [apply list_elem_of_further, list_elem_of_here |].
  split; [simpl; lia |].
  apply (random_angle_is_the_helper_result (world_of weighted_wheel) 1 sample_item 0
           weighted_wheel).
  - unfold owned_by; repeat split; vm_compute; reflexivity.
  - apply list_elem_of_further, list_elem_of_here.
  - simpl; lia.
Defined.

(** The second of three items of weights 1, 1 and 2: the helper is called
    with 90 and 180, and a helper that returns its first bound, its second
    bound or a value outside of them is passed through. *)
Example random_angle_of_second_item :
  (getRandomAngle (fun min max => min) 1 (world_of weighted_wheel)).1 = Ok 90%float ∧
  (getRandomAngle (fun min max => max) 1 (world_of weighted_wheel)).1 = Ok 180%float ∧
  (getRandomAngle (fun min max => (max + min)%float) 1 (world_of weighted_wheel)).1
  = Ok 270%float.
Proof. vm_compute. repeat split. Qed.
